(** * MovieVault: the state logic of [src/App.tsx]

    The [App] component keeps seven pieces of React state, mirrors the
    bookmark array into one [localStorage] slot and talks to the TMDB
    REST API through [fetch].  This development embeds that logic:

    - the JavaScript built-ins the component calls ([String.prototype.trim],
      [Array.prototype.includes], [Array.prototype.filter],
      [JSON.stringify] / [JSON.parse] on arrays of integers, and the
      exception [encodeURIComponent] raises on a lone surrogate);
    - the component state and the environment it acts on (storage slot,
      notification log, network log, in-flight requests);
    - the handlers [fetchTrendingMovies], [searchMovies], [toggleBookmark],
      the mount effect and the derived value [displayedMovies];
    - the event loop driving them.

    Effects are written in a state-and-exception monad so that the handlers
    read like their TypeScript originals. *)

From Stdlib Require Import ZArith NArith List Ascii String Decimal DecimalFacts DecimalPos DecimalN.
From Stdlib Require QArith.
From stdpp Require Import base option list gmap sets strings.

Local Open Scope N_scope.

(** ** JavaScript strings

    A JavaScript string is a finite sequence of UTF-16 code units. *)

Abbreviation jsstring := (list N).

(** A string literal of the source; all literals of [App.tsx] are ASCII, so
    each character is one code unit. *)
Definition lit (s : string) : jsstring :=
  N_of_ascii <$> list_ascii_of_string s.

(** [!s] for a string: only the empty string is falsy. *)
Definition str_truthy (s : jsstring) : bool :=
  match s with [] => false | _ :: _ => true end.

(** [!v] for a value that is a string or [undefined] / [null]. *)
Definition opt_truthy (v : option jsstring) : bool :=
  match v with None => false | Some s => str_truthy s end.

(** ECMAScript [WhiteSpace] and [LineTerminator] code points, the ones
    [String.prototype.trim] strips. *)
Definition is_white_space (c : N) : bool :=
  (c =? 0x9) || (c =? 0xA) || (c =? 0xB) || (c =? 0xC) || (c =? 0xD)
  || (c =? 0x20) || (c =? 0xA0) || (c =? 0x1680)
  || ((0x2000 <=? c) && (c <=? 0x200A))
  || (c =? 0x2028) || (c =? 0x2029) || (c =? 0x202F) || (c =? 0x205F)
  || (c =? 0x3000) || (c =? 0xFEFF).

Fixpoint trimStart (s : jsstring) : jsstring :=
  match s with
  | [] => []
  | c :: s' => if is_white_space c then trimStart s' else s
  end.

Definition trimEnd (s : jsstring) : jsstring :=
  reverse (trimStart (reverse s)).

(** [String.prototype.trim]. *)
Definition trim (s : jsstring) : jsstring := trimEnd (trimStart s).

Fixpoint starts_with (p s : jsstring) : bool :=
  match p, s with
  | [], _ => true
  | _ :: _, [] => false
  | a :: p', b :: s' => (a =? b) && starts_with p' s'
  end.

(** [String.prototype.includes]. *)
Fixpoint str_includes (s p : jsstring) : bool :=
  starts_with p s ||
  match s with
  | [] => false
  | _ :: s' => str_includes s' p
  end.

(** A leading (high) surrogate, U+D800 to U+DBFF. *)
Definition is_high_surrogate (c : N) : bool := (0xD800 <=? c) && (c <=? 0xDBFF).

(** A trailing (low) surrogate, U+DC00 to U+DFFF. *)
Definition is_low_surrogate (c : N) : bool := (0xDC00 <=? c) && (c <=? 0xDFFF).

(** [String.prototype.isWellFormed]: every surrogate is half of a pair, a
    leading one directly followed by a trailing one.  These are the strings
    [encodeURIComponent] can encode; on any other it throws a [URIError]. *)
Fixpoint isWellFormed (s : jsstring) : bool :=
  match s with
  | [] => true
  | c :: s' =>
      if is_high_surrogate c then
        match s' with
        | [] => false
        | d :: s'' => is_low_surrogate d && isWellFormed s''
        end
      else if is_low_surrogate c then false
      else isWellFormed s'
  end.

(** ** JavaScript arrays *)

(** [Array.prototype.includes] on an array of integers: a left-to-right
    scan with [SameValueZero], which on integers is equality. *)
Fixpoint includes (l : list Z) (x : Z) : bool :=
  match l with
  | [] => false
  | y :: l' => (y =? x)%Z || includes l' x
  end.

(** [Array.prototype.filter]: a fresh array of the elements the callback
    accepts, in index order. *)
Fixpoint array_filter {A} (p : A → bool) (l : list A) : list A :=
  match l with
  | [] => []
  | x :: l' => if p x then x :: array_filter p l' else array_filter p l'
  end.

(** ** JSON on arrays of integers

    [toggleBookmark] serialises a [number[]] of item identifiers and the
    mount effect parses it back.  Identifiers are integers; they are printed
    in plain decimal, as [Number::toString] does below 10^21. *)

Fixpoint uint_units (d : uint) : jsstring :=
  match d with
  | Nil => []
  | D0 d => 48 :: uint_units d
  | D1 d => 49 :: uint_units d
  | D2 d => 50 :: uint_units d
  | D3 d => 51 :: uint_units d
  | D4 d => 52 :: uint_units d
  | D5 d => 53 :: uint_units d
  | D6 d => 54 :: uint_units d
  | D7 d => 55 :: uint_units d
  | D8 d => 56 :: uint_units d
  | D9 d => 57 :: uint_units d
  end.

Definition number_to_string (z : Z) : jsstring :=
  match z with
  | Z0 => uint_units (N.to_uint 0)
  | Zpos p => uint_units (N.to_uint (Npos p))
  | Zneg p => 45 :: uint_units (N.to_uint (Npos p))
  end.

Fixpoint join_comma (parts : list jsstring) : jsstring :=
  match parts with
  | [] => []
  | [p] => p
  | p :: rest => p ++ 44 :: join_comma rest
  end.

(** [JSON.stringify] of an array of integers: ["[1,2,3]"], no spaces. *)
Definition JSON_stringify (l : list Z) : jsstring :=
  91 :: join_comma (number_to_string <$> l) ++ [93].

Definition push_digit (c : N) (k : uint → uint) : option (uint → uint) :=
  match c with
  | 48 => Some (λ d, k (D0 d)) | 49 => Some (λ d, k (D1 d))
  | 50 => Some (λ d, k (D2 d)) | 51 => Some (λ d, k (D3 d))
  | 52 => Some (λ d, k (D4 d)) | 53 => Some (λ d, k (D5 d))
  | 54 => Some (λ d, k (D6 d)) | 55 => Some (λ d, k (D7 d))
  | 56 => Some (λ d, k (D8 d)) | 57 => Some (λ d, k (D9 d))
  | _ => None
  end.

Fixpoint units_uint (s : jsstring) : option uint :=
  match s with
  | [] => Some Nil
  | c :: s' =>
      d ← units_uint s';
      k ← push_digit c id;
      Some (k d)
  end.

(** The digits of a JSON integer: ["0"], or a digit string with no leading
    zero, that is, one that is its own normal form. *)
Definition parse_digits (s : jsstring) : option N :=
  d ← units_uint s;
  if uint_eq_dec (unorm d) d then Some (N.of_uint d) else None.

(** A JSON number without fraction or exponent. *)
Definition parse_number (s : jsstring) : option Z :=
  match s with
  | [] => None
  | c :: ds =>
      if c =? 45
      then n ← parse_digits ds; Some (- Z.of_N n)%Z
      else n ← parse_digits s; Some (Z.of_N n)
  end.

(** The elements after the opening bracket; [cur] holds the code units of
    the element being read, last one first. *)
Fixpoint parse_elements (cur : jsstring) (s : jsstring) : option (list Z) :=
  match s with
  | [] => None
  | c :: s' =>
      if c =? 93 then
        match s' with
        | [] => z ← parse_number (reverse cur); Some [z]
        | _ :: _ => None
        end
      else if c =? 44 then
        z ← parse_number (reverse cur);
        zs ← parse_elements [] s';
        Some (z :: zs)
      else parse_elements (c :: cur) s'
  end.

(** [JSON.parse] restricted to the texts [JSON.stringify] produces for
    arrays of integers.  [None] stands for every other text: one on which
    [JSON.parse] throws a [SyntaxError], or returns a value that is not an
    array of integers, or an array written with insignificant white space. *)
Definition JSON_parse (s : jsstring) : option (list Z) :=
  match s with
  | [] => None
  | c :: rest =>
      if c =? 91 then
        match rest with
        | [] => None
        | c' :: rest' =>
            if c' =? 93
            then match rest' with [] => Some [] | _ :: _ => None end
            else parse_elements [] rest
        end
      else None
  end.

(** ** The data of the component *)

(** [interface Movie].  [vote_average] is a JavaScript number that no
    modelled operation inspects; a rational stands in for it.  A poster path
    may be [null] in a TMDB response. *)
Record Movie := mkMovie {
  movie_id : Z;
  title : jsstring;
  poster_path : option jsstring;
  vote_average : QArith_base.Q;
  overview : jsstring;
  release_date : jsstring
}.

(** The seven [useState] cells of [App]. *)
Record AppState := mkState {
  movies : list Movie;
  loading : bool;
  searchQuery : jsstring;
  bookmarks : list Z;
  selectedMovie : option Movie;
  error : option jsstring;
  showBookmarksOnly : bool
}.

(** The initial values passed to [useState]. *)
Definition initial_state : AppState :=
  mkState [] true [] [] None None false.

(** A [react-hot-toast] notification. *)
Inductive Toast :=
  | ToastSuccess (msg : jsstring)
  | ToastError (msg : jsstring).

(** The two GET requests the component can issue, with the value spliced
    into their [api_key] parameter; the search request also carries its
    query. *)
Inductive Request :=
  | GetTrending (api_key : option jsstring)
  | GetSearch (api_key : option jsstring) (query : jsstring).

(** Which [async] function is suspended on its [await fetch(...)]. *)
Inductive Pending :=
  | AwaitTrending
  | AwaitSearch.

(** What the body of a JSON response offers under [data.results]:
    [None] when the field is missing or falsy, [Some l] when it is an array
    (an empty array is truthy). *)
Definition Results := option (list Movie).

(** How an awaited [fetch] plus [response.json()] ends. *)
Inductive Outcome :=
  | NetworkFailure
  | Response (ok : bool) (status : Z) (body : option Results).

(** The component state together with what it acts on: the
    ['movieVaultBookmarks'] slot of [localStorage], the notifications shown
    so far, every request passed to [fetch] so far, the requests not yet
    settled, and the [console.error] lines. *)
Record World := mkWorld {
  view : AppState;
  storage : option jsstring;
  toasts : list Toast;
  network : list Request;
  inflight : list Pending;
  console : list jsstring
}.

(** ** Effects: state plus exceptions *)

Inductive Res (A : Type) :=
  | Ret (a : A) (w : World)
  | Exn (w : World).
Arguments Ret {A} a w.
Arguments Exn {A} w.

Definition Eff (A : Type) : Type := World → Res A.

Definition eff_ret {A} (a : A) : Eff A := λ w, Ret a w.

Definition eff_bind {A B} (m : Eff A) (f : A → Eff B) : Eff B :=
  λ w, match m w with
       | Ret a w' => f a w'
       | Exn w' => Exn w'
       end.

Declare Scope eff_scope.
Delimit Scope eff_scope with eff.
Bind Scope eff_scope with Eff.
Notation "'let!' x ':=' m 'in' k" := (eff_bind m (λ x, k))
  (at level 10, x name, m at level 100, k at level 200,
   format "'[v' 'let!'  x  ':='  m  'in' '/' k ']'") : eff_scope.
Notation "m ';;;' k" := (eff_bind m (λ _, k))
  (at level 100, k at level 200, right associativity,
   format "'[v' m ';;;' '/' k ']'") : eff_scope.
Local Open Scope eff_scope.

Definition throw {A} : Eff A := λ w, Exn w.

Definition skip : Eff unit := eff_ret tt.

(** [try { body } catch { handler } finally { final }]. *)
Definition try_catch_finally (body handler final : Eff unit) : Eff unit :=
  λ w, match body w with
       | Ret _ w1 => final w1
       | Exn w1 =>
           match handler w1 with
           | Ret _ w2 => final w2
           | Exn w2 =>
               match final w2 with
               | Ret _ w3 | Exn w3 => Exn w3
               end
           end
       end.

(** The part of [try { body } catch { handler } finally { final }] that runs
    before the first [await] of an [async] function, [body] being the
    statements of the [try] block up to that [await].  When they complete, the
    function is suspended inside the [try]; when one of them throws, the
    [catch] and the [finally] run at once. *)
Definition try_to_await (body handler final : Eff unit) : Eff unit :=
  λ w, match body w with
       | Ret _ w1 => Ret tt w1
       | Exn w1 => try_catch_finally throw handler final w1
       end.

(** The world an effect leaves behind, whether it returned or threw. *)
Definition world_of {A} (r : Res A) : World :=
  match r with Ret _ w | Exn w => w end.

Definition exec {A} (m : Eff A) (w : World) : World := world_of (m w).

Definition modify_view (f : AppState → AppState) : Eff unit :=
  λ w, Ret tt (mkWorld (f (view w)) (storage w) (toasts w) (network w)
                       (inflight w) (console w)).

(** The [useState] setters. *)
Definition setMovies (v : list Movie) : Eff unit :=
  modify_view (λ s, mkState v (loading s) (searchQuery s) (bookmarks s)
                            (selectedMovie s) (error s) (showBookmarksOnly s)).
Definition setLoading (v : bool) : Eff unit :=
  modify_view (λ s, mkState (movies s) v (searchQuery s) (bookmarks s)
                            (selectedMovie s) (error s) (showBookmarksOnly s)).
Definition setSearchQuery (v : jsstring) : Eff unit :=
  modify_view (λ s, mkState (movies s) (loading s) v (bookmarks s)
                            (selectedMovie s) (error s) (showBookmarksOnly s)).
Definition setBookmarks (v : list Z) : Eff unit :=
  modify_view (λ s, mkState (movies s) (loading s) (searchQuery s) v
                            (selectedMovie s) (error s) (showBookmarksOnly s)).
Definition setSelectedMovie (v : option Movie) : Eff unit :=
  modify_view (λ s, mkState (movies s) (loading s) (searchQuery s) (bookmarks s)
                            v (error s) (showBookmarksOnly s)).
Definition setError (v : option jsstring) : Eff unit :=
  modify_view (λ s, mkState (movies s) (loading s) (searchQuery s) (bookmarks s)
                            (selectedMovie s) v (showBookmarksOnly s)).
Definition setShowBookmarksOnly (v : bool) : Eff unit :=
  modify_view (λ s, mkState (movies s) (loading s) (searchQuery s) (bookmarks s)
                            (selectedMovie s) (error s) v).

Definition get_view : Eff AppState := λ w, Ret (view w) w.

(** [localStorage.getItem('movieVaultBookmarks')]. *)
Definition localStorage_getItem : Eff (option jsstring) :=
  λ w, Ret (storage w) w.

(** [localStorage.setItem('movieVaultBookmarks', v)]. *)
Definition localStorage_setItem (v : jsstring) : Eff unit :=
  λ w, Ret tt (mkWorld (view w) (Some v) (toasts w) (network w)
                       (inflight w) (console w)).

Definition toast_success (msg : jsstring) : Eff unit :=
  λ w, Ret tt (mkWorld (view w) (storage w) (toasts w ++ [ToastSuccess msg])
                       (network w) (inflight w) (console w)).
Definition toast_error (msg : jsstring) : Eff unit :=
  λ w, Ret tt (mkWorld (view w) (storage w) (toasts w ++ [ToastError msg])
                       (network w) (inflight w) (console w)).

Definition console_error (msg : jsstring) : Eff unit :=
  λ w, Ret tt (mkWorld (view w) (storage w) (toasts w) (network w)
                       (inflight w) (console w ++ [msg])).

(** [await fetch(url)]: the request goes out and the calling [async]
    function is suspended until the request settles. *)
Definition fetch (r : Request) (k : Pending) : Eff unit :=
  λ w, Ret tt (mkWorld (view w) (storage w) (toasts w) (network w ++ [r])
                       (inflight w ++ [k]) (console w)).

(** [JSON.parse(text)] for a given reading of [JSON.parse]: [parse text] is
    the array of integers [JSON.parse] returns for [text], and [None] where it
    throws or returns anything else. *)
Definition JSON_parse_with (parse : jsstring → option (list Z))
    (text : jsstring) : Eff (list Z) :=
  match parse text with
  | Some l => eff_ret l
  | None => throw
  end.

(** [encodeURIComponent(s)], evaluated for its exception: it throws a
    [URIError] on a lone surrogate.  The escaped text it returns otherwise is
    not spelled out; a request records the text that was escaped. *)
Definition encodeURIComponent (s : jsstring) : Eff unit :=
  if isWellFormed s then skip else throw.

(** ** The component *)

Definition API_KEY_MISSING : jsstring :=
  lit "API key is missing. Please add your TMDB API key to the .env file.".
Definition NO_MOVIES_FOUND : jsstring := lit "No movies found".
Definition NO_MOVIES_FOR_SEARCH : jsstring :=
  lit "No movies found for your search".
Definition FAILED_TO_FETCH : jsstring :=
  lit "Failed to fetch movies. Please try again later.".
Definition FAILED_TO_SEARCH : jsstring :=
  lit "Failed to search movies. Please try again later.".
Definition REMOVED_FROM_BOOKMARKS : jsstring := lit "Removed from bookmarks".
Definition ADDED_TO_BOOKMARKS : jsstring := lit "Added to bookmarks".

(** The value an awaited [fetch] resolves to; a network failure rejects. *)
Definition await_response (o : Outcome) : Eff (bool * option Results) :=
  match o with
  | NetworkFailure => throw
  | Response ok _ body => eff_ret (ok, body)
  end.

(** [await response.json()]; [None] is a body that does not parse to an
    object, on which the [await] or the following [data.results] throws. *)
Definition response_json (body : option Results) : Eff Results :=
  match body with
  | None => throw
  | Some data => eff_ret data
  end.

Section App.

(** [import.meta.env.VITE_TMDB_API_KEY]: a string fixed at build time, or
    [undefined]. *)
Variable TMDB_API_KEY : option jsstring.

(** [fetchTrendingMovies], up to its [await fetch(...)]. *)
Definition fetchTrendingMovies : Eff unit :=
  if negb (opt_truthy TMDB_API_KEY) then
    setError (Some API_KEY_MISSING);;;
    setLoading false
  else
    setError None;;;
    setLoading true;;;
    setShowBookmarksOnly false;;;
    setSearchQuery [];;;
    fetch (GetTrending TMDB_API_KEY) AwaitTrending.

(** [fetchTrendingMovies] from the moment its request settles: the rest of
    the [try] block, the [catch] and the [finally]. *)
Definition fetchTrendingMovies_settled (o : Outcome) : Eff unit :=
  try_catch_finally
    (let! response := await_response o in
     (if negb (fst response) then throw else skip);;;
     let! data := response_json (snd response) in
     match data with
     | Some results => setMovies results
     | None =>
         setMovies [];;;
         setError (Some NO_MOVIES_FOUND)
     end)
    (console_error (lit "Error fetching trending movies:");;;
     setError (Some FAILED_TO_FETCH);;;
     toast_error FAILED_TO_FETCH;;;
     setMovies [])
    (setLoading false).

(** The [catch] block of [searchMovies]. *)
Definition searchMovies_catch : Eff unit :=
  console_error (lit "Error searching movies:");;;
  setError (Some FAILED_TO_SEARCH);;;
  toast_error FAILED_TO_SEARCH;;;
  setMovies [].

(** [searchMovies], up to its [await fetch(...)].  The request URL is built
    inside the [try], before [fetch] is called: a text that
    [encodeURIComponent] rejects sends nothing and goes straight to the
    [catch] and the [finally]. *)
Definition searchMovies (query : jsstring) : Eff unit :=
  if negb (opt_truthy TMDB_API_KEY) then
    setError (Some API_KEY_MISSING)
  else if negb (str_truthy (trim query)) then
    fetchTrendingMovies
  else
    try_to_await
      (setError None;;;
       setLoading true;;;
       setShowBookmarksOnly false;;;
       encodeURIComponent query;;;
       fetch (GetSearch TMDB_API_KEY query) AwaitSearch)
      searchMovies_catch
      (setLoading false).

(** [searchMovies] from the moment its request settles. *)
Definition searchMovies_settled (o : Outcome) : Eff unit :=
  try_catch_finally
    (let! response := await_response o in
     (if negb (fst response) then throw else skip);;;
     let! data := response_json (snd response) in
     match data with
     | Some results =>
         setMovies results;;;
         if (length results =? 0)%nat
         then setError (Some NO_MOVIES_FOR_SEARCH)
         else skip
     | None =>
         setMovies [];;;
         setError (Some NO_MOVIES_FOUND)
     end)
    searchMovies_catch
    (setLoading false).

(** [toggleBookmark].  [bookmarks] is the array of the render the handler
    was created in: both tests read the array as it was before the call. *)
Definition toggleBookmark (movieId : Z) : Eff unit :=
  let! s := get_view in
  let newBookmarks :=
    if includes (bookmarks s) movieId
    then array_filter (λ id, negb (id =? movieId)%Z) (bookmarks s)
    else bookmarks s ++ [movieId] in
  setBookmarks newBookmarks;;;
  localStorage_setItem (JSON_stringify newBookmarks);;;
  toast_success
    (if includes (bookmarks s) movieId
     then REMOVED_FROM_BOOKMARKS
     else ADDED_TO_BOOKMARKS).

(** [displayedMovies], recomputed at every render. *)
Definition displayedMovies (s : AppState) : list Movie :=
  if showBookmarksOnly s
  then array_filter (λ movie, includes (bookmarks s) (movie_id movie)) (movies s)
  else movies s.

(** The [useEffect(..., [])] callback, run once after the first render,
    for a given reading [parse] of [JSON.parse]. *)
Definition mount_effect_with (parse : jsstring → option (list Z)) : Eff unit :=
  if negb (opt_truthy TMDB_API_KEY) then
    setError (Some API_KEY_MISSING);;;
    setLoading false
  else
    fetchTrendingMovies;;;
    let! savedBookmarks := localStorage_getItem in
    match savedBookmarks with
    | Some text =>
        if str_truthy text then
          let! parsed := JSON_parse_with parse text in
          setBookmarks parsed
        else skip
    | None => skip
    end.

(** The callback over the modelled [JSON_parse]. *)
Definition mount_effect : Eff unit := mount_effect_with JSON_parse.

(** What [<main>] shows. *)
Inductive MainView :=
  | Spinner
  | ErrorPanel (msg : jsstring) (key_instructions : bool)
  | NoBookmarksPanel
  | Grid (cards : list Movie).

Definition render_main (s : AppState) : MainView :=
  let cards :=
    if (length (displayedMovies s) =? 0)%nat && showBookmarksOnly s
    then NoBookmarksPanel
    else Grid (displayedMovies s) in
  if loading s then Spinner
  else
    match error s with
    | Some e =>
        if str_truthy e
        then ErrorPanel e (str_includes e (lit "API key"))
        else cards
    | None => cards
    end.

(** ** The event loop *)

Inductive Event :=
  | ClickHome
  | ClickBookmarksFilter
  | ChangeSearch (value : jsstring)
  | ClickBookmark (movieId : Z)
  | ClickInfo (movie : Movie)
  | CloseModal
  | Settle (n : nat) (o : Outcome)
  | ReloadPage.

Definition take_inflight (n : nat) : Eff (option Pending) :=
  λ w, Ret (inflight w !! n)
           (mkWorld (view w) (storage w) (toasts w) (network w)
                    (delete n (inflight w)) (console w)).

(** The code an event runs.  [Settle n o] settles the [n]-th request in
    flight with outcome [o]; requests settle in any order.  A page reload
    is not a handler, see [step]. *)
Definition handle (ev : Event) : Eff unit :=
  match ev with
  | ClickHome => fetchTrendingMovies
  | ClickBookmarksFilter =>
      let! s := get_view in
      setShowBookmarksOnly (negb (showBookmarksOnly s))
  | ChangeSearch value =>
      setSearchQuery value;;;
      searchMovies value
  | ClickBookmark movieId => toggleBookmark movieId
  | ClickInfo movie => setSelectedMovie (Some movie)
  | CloseModal => setSelectedMovie None
  | Settle n o =>
      let! k := take_inflight n in
      match k with
      | Some AwaitTrending => fetchTrendingMovies_settled o
      | Some AwaitSearch => searchMovies_settled o
      | None => skip
      end
  | ReloadPage => skip
  end.

(** Loading the page with the given content of the storage slot: first
    render with the initial state, then the mount effect.  [None] is an
    exception escaping the effect, which takes the component down. *)
Definition boot_with (parse : jsstring → option (list Z))
    (slot : option jsstring) : option World :=
  match mount_effect_with parse (mkWorld initial_state slot [] [] [] []) with
  | Ret _ w => Some w
  | Exn _ => None
  end.

Definition boot (slot : option jsstring) : option World :=
  boot_with JSON_parse slot.

Definition step (w : World) (ev : Event) : option World :=
  match ev with
  | ReloadPage => boot (storage w)
  | _ => Some (exec (handle ev) w)
  end.

Fixpoint run (w : World) (evs : list Event) : option World :=
  match evs with
  | [] => Some w
  | ev :: evs' => w' ← step w ev; run w' evs'
  end.

(** A browser session: the page is loaded over the given slot content and
    then receives the events. *)
Definition session (slot : option jsstring) (evs : list Event) : option World :=
  w ← boot slot; run w evs.

(** Toggling a series of bookmarks, one click after the other. *)
Definition toggle_all (ids : list Z) (w : World) : World :=
  foldl (λ w id, exec (toggleBookmark id) w) w ids.

End App.

(** ** Vocabulary of the statements *)

(** The Bookmark Set: the identifiers held in the [bookmarks] array. *)
Definition bookmark_set (s : AppState) : gset Z := list_to_set (bookmarks s).

(** What the storage slot deserialises to, an absent slot counting as the
    empty array. *)
Definition slot_content (slot : option jsstring) : option (list Z) :=
  match slot with
  | None => Some []
  | Some text => JSON_parse text
  end.

(** Loading the page over [slot] brings the stored identifiers into the
    component state. *)
Definition startup_loads (key : option jsstring) (slot : option jsstring) : Prop :=
  ∀ bs, slot_content slot = Some bs →
        ∃ w, boot key slot = Some w ∧ bookmarks (view w) = bs.

(** The storage slot holds exactly the serialised [bookmarks] array. *)
Definition mirrored (w : World) : Prop :=
  ∃ text, storage w = Some text ∧ JSON_parse text = Some (bookmarks (view w)).

(** A string with no character other than white space, the empty string
    included. *)
Definition blank (s : jsstring) : Prop := forallb is_white_space s = true.

Definition is_digit (c : N) : Prop := 48 ≤ c ≤ 57.

Definition not_separator (c : N) : Prop :=
  (c =? 93) = false ∧ (c =? 44) = false.

(** An item with the given identifier and title, for the examples. *)
Definition item (id : Z) (name : string) : Movie :=
  mkMovie id (lit name) None (QArith_base.Qmake 0 1) [] [].

(** The array [toggleBookmark] stores for [bs] and [movieId]. *)
Definition toggled (bs : list Z) (movieId : Z) : list Z :=
  if includes bs movieId
  then array_filter (λ id, negb (id =? movieId)%Z) bs
  else bs ++ [movieId].

(** The slot is untouched or holds what a toggle wrote for an array
    without repetition. *)
Definition slot_sound (slot : option jsstring) : Prop :=
  match slot with
  | None => True
  | Some text => ∃ l, text = JSON_stringify l ∧ NoDup l
  end.

(** The invariant of the bookmark array and its mirror. *)
Definition bookmarks_sound (w : World) : Prop :=
  NoDup (bookmarks (view w)) ∧ slot_sound (storage w).

(** The state a missing credential confines the component to. *)
Definition config_error (w : World) : Prop :=
  error (view w) = Some API_KEY_MISSING
  ∧ loading (view w) = false
  ∧ network w = []
  ∧ inflight w = [].

(** The predicate [toggleBookmark] filters by when it removes [movieId]. *)
Definition other_than (movieId : Z) : Z → bool :=
  λ id, negb (id =? movieId)%Z.

(** How often [x] was clicked in a series of toggles. *)
Definition clicks (ids : list Z) (x : Z) : nat := count_occ Z.eq_dec ids x.

(** A request that did not bring back a body to read [results] from: the
    [fetch] promise rejected, the status was not a success, or the body did
    not parse. *)
Definition failed (o : Outcome) : Prop :=
  match o with
  | NetworkFailure => True
  | Response ok _ body => ok = false ∨ body = None
  end.

(** A request that came back with a success status and a [results] array. *)
Definition succeeded (status : Z) (results : list Movie) : Outcome :=
  Response true status (Some (Some results)).

(** The error texts a component with a credential can hold, and the one
    text a component without a credential can hold besides. *)
Definition known_error (key : option jsstring) (e : option jsstring) : Prop :=
  e = None
  ∨ e = Some NO_MOVIES_FOUND
  ∨ e = Some NO_MOVIES_FOR_SEARCH
  ∨ e = Some FAILED_TO_FETCH
  ∨ e = Some FAILED_TO_SEARCH
  ∨ (e = Some API_KEY_MISSING ∧ opt_truthy key = false).

(** A request the component with credential [key] may send: it carries the
    credential, which is not empty, and a search carries a text that is not
    blank. *)
Definition request_ok (key : option jsstring) (r : Request) : Prop :=
  opt_truthy key = true
  ∧ match r with
    | GetTrending k => k = key
    | GetSearch k q => k = key ∧ ¬ blank q
    end.

(** Events that neither open nor close the detail view nor reload. *)
Definition keeps_modal (ev : Event) : Prop :=
  match ev with
  | ClickInfo _ | CloseModal | ReloadPage => False
  | _ => True
  end.

(** Events that are neither a bookmark click nor a reload. *)
Definition keeps_bookmarks (ev : Event) : Prop :=
  match ev with
  | ClickBookmark _ | ReloadPage => False
  | _ => True
  end.

(** ** What the rendered page offers

    The cards, each with its bookmark and info buttons, exist only in the
    grid branch of [<main>]; the detail view with its own bookmark and close
    buttons exists while an item is selected; the header with its home
    button, bookmarks button and search field is always there. *)

Definition grid_cards (s : AppState) : list Movie :=
  match render_main s with
  | Grid cards => cards
  | _ => []
  end.

(** The page rendered from [s] has a control that raises [ev].  Requests
    settle and pages reload whatever is on screen. *)
Definition offered (s : AppState) (ev : Event) : Prop :=
  match ev with
  | ClickBookmark movieId =>
      (∃ movie, movie ∈ grid_cards s ∧ movie_id movie = movieId)
      ∨ (∃ movie, selectedMovie s = Some movie ∧ movie_id movie = movieId)
  | ClickInfo movie => movie ∈ grid_cards s
  | CloseModal => selectedMovie s ≠ None
  | _ => True
  end.

(** Every event of the series is raised through a control the page offers
    at that moment. *)
Fixpoint offered_all (key : option jsstring) (w : World) (evs : list Event) : Prop :=
  match evs with
  | [] => True
  | ev :: evs' =>
      offered (view w) ev
      ∧ match step key w ev with
        | Some w' => offered_all key w' evs'
        | None => True
        end
  end.

(** The items a settled request hands to [setMovies]: the [results] array of
    a readable body. *)
Definition outcome_items (o : Outcome) : list Movie :=
  match o with
  | Response _ _ (Some (Some results)) => results
  | _ => []
  end.

(** The identifiers of all items the responses of a series of events carry. *)
Definition delivered (evs : list Event) : list Z :=
  evs ≫= λ ev, match ev with
               | Settle _ o => movie_id <$> outcome_items o
               | _ => []
               end.

(** Every identifier the world holds (in the item list, in the detail view,
    among the bookmarks, in the storage slot) is one of [seen]. *)
Definition sourced (seen : list Z) (w : World) : Prop :=
  (∀ movie, movie ∈ movies (view w) → movie_id movie ∈ seen)
  ∧ (∀ movie, selectedMovie (view w) = Some movie → movie_id movie ∈ seen)
  ∧ (∀ id, id ∈ bookmarks (view w) → id ∈ seen)
  ∧ (∀ bs id, slot_content (storage w) = Some bs → id ∈ bs → id ∈ seen).

(** * Properties *)

(** ** The built-ins *)

Lemma includes_true_iff (l : list Z) (x : Z) : includes l x = true ↔ x ∈ l.
Proof.
  induction l as [|y l IH]; simpl.
  - split; [discriminate | intros H; inversion H].
  - rewrite orb_true_iff, IH, Z.eqb_eq, elem_of_cons.
    split; (intros [H|H]; [left|right]); done.
Qed.

Lemma includes_false_iff (l : list Z) (x : Z) : includes l x = false ↔ x ∉ l.
Proof.
  rewrite <- includes_true_iff. destruct (includes l x); split; congruence.
Qed.

Lemma array_filter_stdpp {A} (p : A → bool) (P : A → Prop)
    `{!∀ x, Decision (P x)} (l : list A) :
  (∀ x, p x = true ↔ P x) → array_filter p l = filter P l.
Proof.
  intros Hp. induction l as [|x l IH]; [done|]. simpl.
  rewrite filter_cons, IH.
  destruct (p x) eqn:Hx; destruct (decide (P x)) as [HP|HP]; try done.
  - apply Hp in Hx. done.
  - apply Hp in HP. congruence.
Qed.

Lemma array_filter_stdpp_id {A} (p : A → bool) (l : list A) :
  (∀ x, x ∈ l → p x = true) → array_filter p l = l.
Proof.
  induction l as [|x l IH]; [done|]. intros H. simpl.
  rewrite (H x) by left. f_equal. apply IH. intros y Hy. apply H. by right.
Qed.

Lemma elem_of_array_filter {A} (p : A → bool) (l : list A) (x : A) :
  x ∈ array_filter p l ↔ p x = true ∧ x ∈ l.
Proof.
  rewrite (array_filter_stdpp p (λ y, p y = true)) by done.
  by rewrite list_elem_of_filter.
Qed.

Lemma array_filter_NoDup {A} (p : A → bool) (l : list A) :
  NoDup l → NoDup (array_filter p l).
Proof.
  rewrite (array_filter_stdpp p (λ y, p y = true)) by done.
  apply NoDup_filter.
Qed.

(** *** White space *)

Lemma trimStart_blank (s : jsstring) :
  forallb is_white_space s = true → trimStart s = [].
Proof.
  induction s as [|c s IH]; [done|]. simpl.
  intros [Hc Hs]%andb_true_iff. rewrite Hc. auto.
Qed.

Lemma trimStart_nil_blank (s : jsstring) :
  trimStart s = [] → forallb is_white_space s = true.
Proof.
  induction s as [|c s IH]; [done|]. simpl.
  destruct (is_white_space c); [auto | discriminate].
Qed.

(** [trim] leaves nothing exactly of the strings made of white space. *)
Lemma trim_nil_iff (s : jsstring) :
  trim s = [] ↔ forallb is_white_space s = true.
Proof.
  unfold trim, trimEnd. split.
  - intros H. apply trimStart_nil_blank.
    destruct (trimStart s) as [|c t] eqn:E; [done|]. exfalso.
    assert (Hr : trimStart (reverse (c :: t)) = []).
    { apply (f_equal reverse) in H. by rewrite reverse_involutive in H. }
    assert (Hc : is_white_space c = false).
    { destruct s as [|c0 s0]; [done|]. revert E. clear.
      revert c0. induction s0 as [|c1 s0 IH]; intros c0; simpl.
      - destruct (is_white_space c0) eqn:E0; [done|]. by intros [= <- <-].
      - destruct (is_white_space c0) eqn:E0.
        + apply IH.
        + by intros [= <- <-]. }
    apply trimStart_nil_blank in Hr.
    rewrite reverse_cons, forallb_app in Hr. simpl in Hr.
    rewrite Hc in Hr. by rewrite andb_false_r in Hr.
  - intros H. by rewrite (trimStart_blank s H).
Qed.

(** *** JSON round trip *)

Lemma units_uint_uint_units (d : uint) : units_uint (uint_units d) = Some d.
Proof. induction d; simpl; [done|by rewrite IHd..]. Qed.

Lemma to_uint_normal (n : N) : unorm (N.to_uint n) = N.to_uint n.
Proof.
  rewrite <- (DecimalN.Unsigned.to_of (N.to_uint n)).
  by rewrite DecimalN.Unsigned.of_to.
Qed.

Lemma parse_digits_print (n : N) : parse_digits (uint_units (N.to_uint n)) = Some n.
Proof.
  unfold parse_digits. rewrite units_uint_uint_units. simpl.
  destruct (uint_eq_dec _ _) as [_|Hn].
  - by rewrite DecimalN.Unsigned.of_to.
  - by destruct Hn; apply to_uint_normal.
Qed.

Lemma uint_units_digits (d : uint) : Forall is_digit (uint_units d).
Proof. induction d; simpl; constructor; auto; unfold is_digit; lia. Qed.

Lemma uint_units_nonempty (n : N) : uint_units (N.to_uint n) ≠ [].
Proof.
  pose proof (unorm_nonnil (N.to_uint n)) as H. rewrite to_uint_normal in H.
  by destruct (N.to_uint n).
Qed.

Lemma parse_number_print (z : Z) : parse_number (number_to_string z) = Some z.
Proof.
  assert (Hpos : ∀ n, parse_number (uint_units (N.to_uint n)) = Some (Z.of_N n)).
  { intros n. pose proof (parse_digits_print n) as Hp.
    pose proof (uint_units_digits (N.to_uint n)) as Hd.
    pose proof (uint_units_nonempty n) as Hne.
    destruct (uint_units (N.to_uint n)) as [|c ds]; [done|].
    unfold parse_number. apply Forall_cons in Hd as [Hc _].
    destruct (N.eqb_spec c 45) as [->|_]; [unfold is_digit in Hc; lia|].
    by rewrite Hp. }
  destruct z as [|p|p]; unfold number_to_string.
  - apply (Hpos 0).
  - apply (Hpos (Npos p)).
  - unfold parse_number. rewrite N.eqb_refl, parse_digits_print. done.
Qed.

Lemma number_to_string_no_separator (z : Z) :
  Forall not_separator (number_to_string z).
Proof.
  assert (H : ∀ d, Forall not_separator (uint_units d)).
  { intros d. eapply Forall_impl; [apply uint_units_digits|].
    intros c Hc. unfold is_digit in Hc. split; apply N.eqb_neq; lia. }
  destruct z; unfold number_to_string; try apply H.
  constructor; [done|apply H].
Qed.

Lemma number_to_string_nonempty (z : Z) : number_to_string z ≠ [].
Proof.
  destruct z as [|p|p]; unfold number_to_string; try done;
    apply uint_units_nonempty.
Qed.

Lemma parse_elements_skip (s rest cur : jsstring) :
  Forall not_separator s →
  parse_elements cur (s ++ rest) = parse_elements (reverse s ++ cur) rest.
Proof.
  revert cur. induction s as [|c s IH]; intros cur Hs; [done|].
  apply Forall_cons in Hs as [[H1 H2] Hs]. simpl. rewrite H1, H2.
  rewrite IH by done. by rewrite reverse_cons, <- app_assoc.
Qed.

Lemma parse_elements_comma (cur s : jsstring) :
  parse_elements cur (44 :: s)
  = z ← parse_number (reverse cur); zs ← parse_elements [] s; Some (z :: zs).
Proof. reflexivity. Qed.

Lemma parse_elements_close (cur : jsstring) :
  parse_elements cur [93] = z ← parse_number (reverse cur); Some [z].
Proof. reflexivity. Qed.

Lemma parse_elements_print (z : Z) (l : list Z) :
  parse_elements [] (join_comma (number_to_string <$> z :: l) ++ [93])
  = Some (z :: l).
Proof.
  revert z. induction l as [|z' l IH]; intros z.
  - change (join_comma (number_to_string <$> [z])) with (number_to_string z).
    rewrite parse_elements_skip by apply number_to_string_no_separator.
    rewrite parse_elements_close, app_nil_r, reverse_involutive.
    by rewrite parse_number_print.
  - change (join_comma (number_to_string <$> z :: z' :: l))
      with (number_to_string z ++ 44 :: join_comma (number_to_string <$> z' :: l)).
    rewrite <- app_assoc, <- app_comm_cons.
    rewrite parse_elements_skip by apply number_to_string_no_separator.
    rewrite parse_elements_comma, app_nil_r, reverse_involutive.
    by rewrite parse_number_print, IH.
Qed.

(** What [JSON.stringify] writes for an array of integers, [JSON.parse]
    reads back as the same array. *)
Lemma JSON_parse_stringify (l : list Z) : JSON_parse (JSON_stringify l) = Some l.
Proof.
  destruct l as [|z l]; [done|].
  unfold JSON_stringify, JSON_parse. rewrite N.eqb_refl.
  pose proof (parse_elements_print z l) as Hp.
  assert (∃ c t, join_comma (number_to_string <$> z :: l) = c :: t
                 ∧ not_separator c) as (c & t & E & [Hc _]).
  { pose proof (number_to_string_no_separator z) as Hs.
    pose proof (number_to_string_nonempty z) as Hne.
    destruct (number_to_string z) as [|c t] eqn:Ez; [done|].
    apply Forall_cons in Hs as [Hc _].
    destruct l as [|z' l]; simpl; rewrite Ez; eauto. }
  rewrite E in Hp |- *. rewrite <- app_comm_cons in Hp |- *.
  by rewrite Hc.
Qed.

(** ** Unfolding the handlers *)

Ltac eff_unfold :=
  cbv beta iota zeta delta
    [exec world_of eff_bind eff_ret throw skip try_catch_finally modify_view
     get_view setMovies setLoading setSearchQuery setBookmarks setSelectedMovie
     setError setShowBookmarksOnly localStorage_getItem localStorage_setItem
     toast_success toast_error console_error fetch take_inflight
     await_response response_json
     fetchTrendingMovies fetchTrendingMovies_settled searchMovies
     searchMovies_settled searchMovies_catch try_to_await encodeURIComponent
     toggleBookmark mount_effect mount_effect_with handle boot boot_with
     view storage toasts network inflight console
     movies loading searchQuery bookmarks selectedMovie error showBookmarksOnly
     fst snd negb].

Lemma toggleBookmark_world (movieId : Z) (w : World) :
  exec (toggleBookmark movieId) w
  = mkWorld
      (mkState (movies (view w)) (loading (view w)) (searchQuery (view w))
               (toggled (bookmarks (view w)) movieId)
               (selectedMovie (view w)) (error (view w))
               (showBookmarksOnly (view w)))
      (Some (JSON_stringify (toggled (bookmarks (view w)) movieId)))
      (toasts w ++ [ToastSuccess (if includes (bookmarks (view w)) movieId
                                  then REMOVED_FROM_BOOKMARKS
                                  else ADDED_TO_BOOKMARKS)])
      (network w) (inflight w) (console w).
Proof. reflexivity. Qed.

Lemma toggleBookmark_returns (movieId : Z) (w : World) :
  toggleBookmark movieId w = Ret tt (exec (toggleBookmark movieId) w).
Proof. reflexivity. Qed.

Lemma elem_of_toggled (bs : list Z) (movieId x : Z) :
  x ∈ toggled bs movieId ↔
  (x ∈ bs ∧ x ≠ movieId) ∨ (x = movieId ∧ movieId ∉ bs).
Proof.
  unfold toggled. destruct (includes bs movieId) eqn:E.
  - apply includes_true_iff in E.
    rewrite elem_of_array_filter, negb_true_iff, Z.eqb_neq. tauto.
  - apply includes_false_iff in E.
    rewrite elem_of_app, list_elem_of_singleton.
    destruct (decide (x = movieId)) as [->|]; tauto.
Qed.

Lemma toggled_absent (bs : list Z) (movieId : Z) :
  movieId ∉ bs → toggled (toggled bs movieId) movieId = bs.
Proof.
  intros Hn. unfold toggled at 2.
  rewrite (proj2 (includes_false_iff bs movieId) Hn).
  unfold toggled.
  rewrite (proj2 (includes_true_iff (bs ++ [movieId]) movieId))
    by (apply elem_of_app; right; by left).
  induction bs as [|y bs IH]; simpl.
  - by rewrite Z.eqb_refl.
  - apply not_elem_of_cons in Hn as [Hne Hn].
    rewrite (proj2 (Z.eqb_neq y movieId)) by done. simpl.
    f_equal. by apply IH.
Qed.

Lemma toggled_NoDup (bs : list Z) (movieId : Z) :
  NoDup bs → NoDup (toggled bs movieId).
Proof.
  intros Hnd. unfold toggled. destruct (includes bs movieId) eqn:E.
  - by apply array_filter_NoDup.
  - apply includes_false_iff in E. apply NoDup_app. split_and!; [done| |].
    + intros x Hx ->%list_elem_of_singleton. done.
    + apply NoDup_singleton.
Qed.

(** ** The display filter *)

(** C1. With the bookmarks-only flag on, the displayed list is the fetched
    list restricted to the items whose identifier is in the Bookmark Set, in
    the order of the fetched list; with the flag off it is the fetched list
    itself. *)
Theorem displayedMovies_filters_by_bookmarks (s : AppState) :
  displayedMovies s
  = (if showBookmarksOnly s
     then filter (λ m, movie_id m ∈ bookmark_set s) (movies s)
     else movies s)
  ∧ displayedMovies s `sublist_of` movies s.
Proof.
  unfold displayedMovies, bookmark_set.
  assert (E : array_filter (λ movie, includes (bookmarks s) (movie_id movie)) (movies s)
              = filter (λ m, movie_id m ∈@{gset Z} list_to_set (bookmarks s)) (movies s)).
  { apply array_filter_stdpp. intros m.
    by rewrite includes_true_iff, elem_of_list_to_set. }
  destruct (showBookmarksOnly s); [|done].
  rewrite E. split; [done|]. apply sublist_filter.
Qed.

(** ** The bookmark toggle *)

(** C2. Toggling the same identifier twice gives back the Bookmark Set the
    component started from: the same identifiers, hence the same answer to
    every membership test. *)
Theorem toggleBookmark_twice (movieId : Z) (w : World) :
  let w2 := exec (toggleBookmark movieId) (exec (toggleBookmark movieId) w) in
  bookmark_set (view w2) = bookmark_set (view w)
  ∧ ∀ x, includes (bookmarks (view w2)) x = includes (bookmarks (view w)) x.
Proof.
  intros w2. subst w2. rewrite !toggleBookmark_world. cbn [view bookmarks].
  set (bs := bookmarks (view w)).
  assert (H : ∀ x, x ∈ toggled (toggled bs movieId) movieId ↔ x ∈ bs).
  { intros x. rewrite !elem_of_toggled.
    destruct (decide (movieId ∈ bs)); destruct (decide (x = movieId)) as [->|];
      intuition congruence. }
  split.
  - unfold bookmark_set. cbn [bookmarks]. apply set_eq. intros x.
    by rewrite !elem_of_list_to_set.
  - intros x. apply eq_true_iff_eq. by rewrite !includes_true_iff.
Qed.

(** C3. After one toggle or more, from any state whatever, the text in the
    storage slot parses to exactly the [bookmarks] array in memory. *)
Theorem storage_mirrors_bookmarks (w : World) (movieId : Z) (ids : list Z) :
  mirrored (toggle_all (movieId :: ids) w).
Proof.
  assert (Hone : ∀ id w, mirrored (exec (toggleBookmark id) w)).
  { intros id w0. rewrite toggleBookmark_world. eexists. split; [done|].
    apply JSON_parse_stringify. }
  assert (Hall : ∀ ids w, mirrored w → mirrored (toggle_all ids w)).
  { intros ids'. induction ids' as [|id ids' IH]; intros w0 Hw; [done|].
    apply (IH (exec (toggleBookmark id) w0)), Hone. }
  apply (Hall ids (exec (toggleBookmark movieId) w)), Hone.
Qed.

(** C9. The notification of a toggle is the one new entry of the
    notification log, and its text follows the membership before the toggle:
    the removal text exactly when the identifier was bookmarked, the addition
    text exactly when it was not. *)
Theorem toggleBookmark_toast (movieId : Z) (w : World) :
  ∃ msg, toasts (exec (toggleBookmark movieId) w) = toasts w ++ [ToastSuccess msg]
         ∧ (msg = REMOVED_FROM_BOOKMARKS ↔ movieId ∈ bookmark_set (view w))
         ∧ (msg = ADDED_TO_BOOKMARKS ↔ movieId ∉ bookmark_set (view w)).
Proof.
  rewrite toggleBookmark_world. cbn [toasts]. eexists. split; [done|].
  unfold bookmark_set. rewrite elem_of_list_to_set.
  destruct (includes (bookmarks (view w)) movieId) eqn:E.
  - apply includes_true_iff in E. split; split; try done; intros [=].
  - apply includes_false_iff in E. split; split; try done; intros [=].
Qed.

(** C10. A toggle leaves the item list, the loading flag, the error
    message, the search text, the selected item and the bookmarks-only flag
    as they were; it issues no request and settles none. *)
Theorem toggleBookmark_frame (movieId : Z) (w : World) :
  let w' := exec (toggleBookmark movieId) w in
  movies (view w') = movies (view w)
  ∧ loading (view w') = loading (view w)
  ∧ error (view w') = error (view w)
  ∧ searchQuery (view w') = searchQuery (view w)
  ∧ selectedMovie (view w') = selectedMovie (view w)
  ∧ showBookmarksOnly (view w') = showBookmarksOnly (view w)
  ∧ network w' = network w
  ∧ inflight w' = inflight w.
Proof. intros w'. subst w'. rewrite toggleBookmark_world. by repeat split. Qed.

(** ** Other handlers leave the bookmarks alone *)

(** Case analysis on whatever a handler branches on, innermost test first. *)
Ltac eff_case :=
  match goal with
  | |- context [match ?x with _ => _ end] =>
      lazymatch x with
      | context [match _ with _ => _ end] => fail
      | _ => destruct x eqn:?
      end
  end.

Ltac eff_cases := eff_unfold; repeat (eff_case; eff_unfold).

Lemma handle_keeps_bookmarks (key : option jsstring) (ev : Event) (w : World) :
  (∀ movieId, ev ≠ ClickBookmark movieId) →
  bookmarks (view (exec (handle key ev) w)) = bookmarks (view w)
  ∧ storage (exec (handle key ev) w) = storage w.
Proof.
  intros Hev. destruct ev; try (by destruct (Hev movieId));
    destruct w as [[] ? ? ? ? ?]; eff_cases; done.
Qed.

(** No handler lets an exception escape: each [try] catches what its body
    throws. *)
Lemma handle_returns (key : option jsstring) (ev : Event) (w : World) :
  handle key ev w = Ret tt (exec (handle key ev) w).
Proof. destruct ev; eff_cases; done. Qed.

Lemma handle_toggle (key : option jsstring) (movieId : Z) (w : World) :
  exec (handle key (ClickBookmark movieId)) w = exec (toggleBookmark movieId) w.
Proof. reflexivity. Qed.

(** ** Startup *)

Lemma boot_without_key (key slot : option jsstring) :
  opt_truthy key = false →
  boot key slot
  = Some (mkWorld (mkState [] false [] [] None (Some API_KEY_MISSING) false)
                  slot [] [] [] []).
Proof. intros Hk. unfold boot, boot_with, mount_effect_with. by rewrite Hk. Qed.

Lemma boot_with_key (key slot : option jsstring) (bs : list Z) :
  opt_truthy key = true →
  slot_content slot = Some bs →
  boot key slot
  = Some (mkWorld (mkState [] true [] bs None None false)
                  slot [] [GetTrending key] [AwaitTrending] []).
Proof.
  intros Hk Hs. unfold boot, boot_with, mount_effect_with, fetchTrendingMovies. rewrite Hk.
  destruct slot as [text|]; simpl in Hs.
  - destruct text as [|c text]; [done|].
    eff_unfold. cbn [str_truthy]. unfold JSON_parse_with. rewrite Hs. done.
  - by injection Hs as <-.
Qed.

Lemma boot_with_without_key (parse : jsstring → option (list Z))
    (key slot : option jsstring) :
  opt_truthy key = false →
  boot_with key parse slot
  = Some (mkWorld (mkState [] false [] [] None (Some API_KEY_MISSING) false)
                  slot [] [] [] []).
Proof. intros Hk. unfold boot_with, mount_effect_with. by rewrite Hk. Qed.

Lemma boot_with_empty (parse : jsstring → option (list Z))
    (key slot : option jsstring) :
  opt_truthy key = true → opt_truthy slot = false →
  boot_with key parse slot
  = Some (mkWorld (mkState [] true [] [] None None false)
                  slot [] [GetTrending key] [AwaitTrending] []).
Proof.
  intros Hk Hs. unfold boot_with, mount_effect_with, fetchTrendingMovies.
  rewrite Hk. by destruct slot as [[|c text]|].
Qed.

Lemma boot_with_loaded (parse : jsstring → option (list Z))
    (key : option jsstring) (text : jsstring) (bs : list Z) :
  opt_truthy key = true → str_truthy text = true → parse text = Some bs →
  boot_with key parse (Some text)
  = Some (mkWorld (mkState [] true [] bs None None false)
                  (Some text) [] [GetTrending key] [AwaitTrending] []).
Proof.
  intros Hk Ht Hp. unfold boot_with, mount_effect_with, fetchTrendingMovies.
  rewrite Hk. eff_unfold. rewrite Ht. unfold JSON_parse_with. by rewrite Hp.
Qed.

(** C6, as the code has it.  Whatever [JSON.parse] makes of the texts it is
    given: at a startup with a credential, a slot that is absent (or holds
    the empty string) gives the empty Bookmark Set, and a slot holding a text
    gives exactly the array [JSON.parse] returns for that text, the slot
    itself staying as it was; at a startup without a credential the slot is
    not read, whatever it holds and whatever [JSON.parse] would do with it:
    the page comes up in the missing-key state with no bookmark. *)
Theorem startup_loads_bookmarks (parse : jsstring → option (list Z))
    (key slot : option jsstring) :
  (opt_truthy key = true →
     (opt_truthy slot = false →
        ∃ w, boot_with key parse slot = Some w
             ∧ bookmarks (view w) = [] ∧ storage w = slot)
     ∧ (∀ text bs, slot = Some text → str_truthy text = true →
                   parse text = Some bs →
        ∃ w, boot_with key parse slot = Some w
             ∧ bookmarks (view w) = bs ∧ storage w = slot))
  ∧ (opt_truthy key = false →
     ∃ w, boot_with key parse slot = Some w
          ∧ view w = mkState [] false [] [] None (Some API_KEY_MISSING) false
          ∧ storage w = slot).
Proof.
  split.
  - intros Hk. split.
    + intros Hs. rewrite (boot_with_empty parse key slot Hk Hs). by eexists.
    + intros text bs -> Ht Hp.
      rewrite (boot_with_loaded parse key text bs Hk Ht Hp). by eexists.
  - intros Hk. rewrite (boot_with_without_key parse key slot Hk). by eexists.
Qed.

Lemma startup_loads_bookmarks_witness :
  let spaced := λ _ : jsstring, Some [1; 2]%Z in
  (∃ w, boot_with (Some (lit "k")) spaced (Some (lit "[1, 2]")) = Some w
        ∧ bookmarks (view w) = [1; 2]%Z)
  ∧ (∃ w, boot (Some (lit "k")) None = Some w ∧ bookmarks (view w) = [])
  ∧ (∃ w, boot None (Some (lit "[7]")) = Some w ∧ bookmarks (view w) = []).
Proof.
  intros spaced.
  destruct (startup_loads_bookmarks spaced (Some (lit "k")) (Some (lit "[1, 2]")))
    as [Hkey _].
  destruct (Hkey eq_refl) as [_ Hload].
  destruct (Hload (lit "[1, 2]") [1; 2]%Z eq_refl eq_refl eq_refl)
    as (w1 & Hb1 & Hbs1 & _).
  destruct (startup_loads_bookmarks JSON_parse (Some (lit "k")) None)
    as [Hkey2 _].
  destruct (Hkey2 eq_refl) as [Hempty _].
  destruct (Hempty eq_refl) as (w2 & Hb2 & Hbs2 & _).
  destruct (startup_loads_bookmarks JSON_parse None (Some (lit "[7]")))
    as [_ Hnokey].
  destruct (Hnokey eq_refl) as (w3 & Hb3 & Hv3 & _).
  split; [by exists w1|]. split; [by exists w2|].
  exists w3. split; [exact Hb3|]. by rewrite Hv3.
Defined.

(** C6, as stated, fails: without a credential the mount effect returns
    before it reads the slot, so the stored identifier 7 is not loaded. *)
Lemma startup_without_key_skips_load :
  ¬ startup_loads None (Some (lit "[7]")).
Proof.
  intros H. destruct (H [7%Z] eq_refl) as (w & Hb & Hbs).
  rewrite boot_without_key in Hb by done. injection Hb as <-. done.
Qed.

(** ** A missing credential *)

Lemma config_error_render (w : World) :
  config_error w → render_main (view w) = ErrorPanel API_KEY_MISSING true.
Proof.
  intros (He & Hl & _). unfold render_main. by rewrite Hl, He.
Qed.

Lemma config_error_step (key : option jsstring) (w : World) (ev : Event) :
  opt_truthy key = false → config_error w →
  ∃ w', step key w ev = Some w' ∧ config_error w'.
Proof.
  intros Hk (He & Hl & Hn & Hi). unfold config_error.
  destruct ev; cbn [step];
    try (eexists; split; [reflexivity|]).
  - unfold handle, fetchTrendingMovies. rewrite Hk. by repeat split.
  - by repeat split.
  - unfold handle, searchMovies. rewrite Hk. by repeat split.
  - rewrite handle_toggle, toggleBookmark_world. by repeat split.
  - by repeat split.
  - by repeat split.
  - unfold handle, exec, eff_bind, take_inflight. rewrite Hi.
    rewrite lookup_nil. by repeat split.
  - rewrite boot_without_key by done. eexists. split; [done|].
    by repeat split.
Qed.

Lemma config_error_run (key : option jsstring) (evs : list Event) (w : World) :
  opt_truthy key = false → config_error w →
  ∃ w', run key w evs = Some w' ∧ config_error w'.
Proof.
  intros Hk. revert w. induction evs as [|ev evs IH]; intros w Hw.
  - by exists w.
  - destruct (config_error_step key w ev Hk Hw) as (w1 & Hs & Hw1).
    destruct (IH w1 Hw1) as (w2 & Hr & Hw2).
    exists w2. split; [|done]. simpl. by rewrite Hs.
Qed.

(** C4. Without a credential, the page comes up in the configuration-error
    state (the missing-key message, shown with the key instructions, and no
    spinner) having passed nothing to [fetch]; [fetchTrendingMovies] and
    [searchMovies] set the message and return before any request; and the
    whole session, whatever the events, issues no request. *)
Theorem missing_credential_no_fetch (key : option jsstring) :
  opt_truthy key = false →
  (∀ slot, ∃ w, boot key slot = Some w ∧ config_error w
                ∧ render_main (view w) = ErrorPanel API_KEY_MISSING true)
  ∧ (∀ w, let w' := exec (fetchTrendingMovies key) w in
          error (view w') = Some API_KEY_MISSING
          ∧ network w' = network w ∧ inflight w' = inflight w)
  ∧ (∀ query w, let w' := exec (searchMovies key query) w in
          error (view w') = Some API_KEY_MISSING
          ∧ network w' = network w ∧ inflight w' = inflight w)
  ∧ (∀ slot evs, ∃ w, session key slot evs = Some w ∧ network w = []
                      ∧ render_main (view w) = ErrorPanel API_KEY_MISSING true).
Proof.
  intros Hk.
  assert (Hboot : ∀ slot, ∃ w, boot key slot = Some w ∧ config_error w).
  { intros slot. rewrite boot_without_key by done. eexists. split; [done|].
    by repeat split. }
  split_and!.
  - intros slot. destruct (Hboot slot) as (w & Hb & Hw).
    exists w. split_and!; [done..|]. by apply config_error_render.
  - intros w. unfold fetchTrendingMovies. rewrite Hk. by repeat split.
  - intros query w. unfold searchMovies. rewrite Hk. by repeat split.
  - intros slot evs. destruct (Hboot slot) as (w & Hb & Hw).
    destruct (config_error_run key evs w Hk Hw) as (w' & Hr & Hw').
    exists w'. split_and!.
    + unfold session. by rewrite Hb.
    + apply Hw'.
    + by apply config_error_render.
Qed.

Lemma missing_credential_no_fetch_witness :
  opt_truthy None = false
  ∧ ∃ w, session None (Some (lit "[7]")) [ClickHome; ChangeSearch (lit "dune")]
         = Some w ∧ network w = [].
Proof.
  split; [reflexivity|].
  destruct (missing_credential_no_fetch None eq_refl) as (_ & _ & _ & H).
  destruct (H (Some (lit "[7]")) [ClickHome; ChangeSearch (lit "dune")])
    as (w & Hs & Hn & _).
  exists w. by split.
Defined.

(** ** Blank searches *)

Lemma blank_trim (q : jsstring) : blank q → str_truthy (trim q) = false.
Proof. intros Hq. by rewrite (proj2 (trim_nil_iff q) Hq). Qed.

Lemma searchMovies_blank (key : option jsstring) (q : jsstring) :
  blank q → opt_truthy key = true →
  searchMovies key q = fetchTrendingMovies key.
Proof.
  intros Hq Hk. unfold searchMovies. by rewrite Hk, (blank_trim q Hq).
Qed.

(** C5. A search whose text is empty or all white space runs
    [fetchTrendingMovies] and nothing else: with a credential, the handler
    leaves the very world a click on the home button leaves, trending
    request in flight included, so whatever the request settles to is
    displayed as in trending mode; it passes the same requests to [fetch] as
    the trending fetch does, none of them a search request; and the displayed
    list agrees with the trending fetch's at once. *)
Theorem blank_search_is_trending (key : option jsstring) (q : jsstring) (w : World) :
  blank q →
  (opt_truthy key = true →
     searchMovies key q w = fetchTrendingMovies key w
     ∧ exec (handle key (ChangeSearch q)) w = exec (handle key ClickHome) w)
  ∧ network (exec (searchMovies key q) w)
    = network (exec (fetchTrendingMovies key) w)
  ∧ inflight (exec (searchMovies key q) w)
    = inflight (exec (fetchTrendingMovies key) w)
  ∧ (∀ k q', GetSearch k q' ∈ network (exec (searchMovies key q) w) →
             GetSearch k q' ∈ network w)
  ∧ displayedMovies (view (exec (searchMovies key q) w))
    = displayedMovies (view (exec (fetchTrendingMovies key) w)).
Proof.
  intros Hq. destruct (opt_truthy key) eqn:Hk.
  - rewrite (searchMovies_blank key q Hq Hk). split_and!; try done.
    + intros _. split; [done|]. unfold handle.
      rewrite (searchMovies_blank key q Hq Hk).
      unfold fetchTrendingMovies. rewrite Hk. done.
    + intros k q'. unfold fetchTrendingMovies. rewrite Hk.
      eff_unfold. rewrite elem_of_app, list_elem_of_singleton.
      by intros [H|[=]].
  - unfold searchMovies, fetchTrendingMovies. rewrite Hk.
    split_and!; done.
Qed.

Lemma blank_search_is_trending_witness :
  blank (lit "   ")
  ∧ exec (handle (Some (lit "k")) (ChangeSearch (lit "   ")))
         (mkWorld initial_state None [] [] [] [])
    = exec (handle (Some (lit "k")) ClickHome)
           (mkWorld initial_state None [] [] [] [])
  ∧ network (exec (searchMovies (Some (lit "k")) (lit "   "))
                  (mkWorld initial_state None [] [] [] []))
    = [GetTrending (Some (lit "k"))].
Proof.
  split; [reflexivity|].
  destruct (blank_search_is_trending (Some (lit "k")) (lit "   ")
              (mkWorld initial_state None [] [] [] []) eq_refl)
    as (Hkey & Hnet & _).
  destruct (Hkey eq_refl) as [_ Hsame].
  split; [exact Hsame|]. rewrite Hnet. reflexivity.
Defined.

(** ** Empty results *)

(** A search that comes back with an empty [results] array leaves the list
    empty and puts the no-results text, which is not the failure text, in
    the error slot. *)
Lemma search_empty_results (status : Z) (w : World) :
  let w' := exec (searchMovies_settled (Response true status (Some (Some [])))) w in
  movies (view w') = []
  ∧ error (view w') = Some NO_MOVIES_FOR_SEARCH
  ∧ loading (view w') = false
  ∧ NO_MOVIES_FOR_SEARCH ≠ FAILED_TO_SEARCH.
Proof. by repeat split. Qed.

(** A response without a [results] field gets the no-results text from both
    fetches. *)
Lemma missing_results (k : Pending) (status : Z) (w : World) :
  let settled := match k with
                 | AwaitTrending => fetchTrendingMovies_settled
                 | AwaitSearch => searchMovies_settled
                 end in
  let w' := exec (settled (Response true status (Some None))) w in
  movies (view w') = [] ∧ error (view w') = Some NO_MOVIES_FOUND.
Proof. by destruct k. Qed.

(** The trending fetch stores an empty [results] array and leaves the error
    slot as it stands. *)
Lemma trending_empty_results (status : Z) (w : World) :
  let w' := exec (fetchTrendingMovies_settled (Response true status (Some (Some [])))) w in
  movies (view w') = []
  ∧ error (view w') = error (view w)
  ∧ loading (view w') = false.
Proof. by repeat split. Qed.

(** C7, at the input on which the code departs from it.  The page loads
    with a credential; the trending request comes back with status 200 and
    an empty [results] array.  The list is empty, the error slot holds no
    text, and the page shows an empty grid. *)
Theorem trending_empty_results_no_message :
  ∃ w, session (Some (lit "k")) None
         [Settle 0 (Response true 200 (Some (Some [])))] = Some w
       ∧ movies (view w) = []
       ∧ error (view w) = None
       ∧ render_main (view w) = Grid [].
Proof. eexists. by repeat split. Qed.

(** ** No identifier is bookmarked twice *)

Lemma boot_sound (key slot : option jsstring) :
  slot_sound slot → ∃ w, boot key slot = Some w ∧ bookmarks_sound w.
Proof.
  intros Hs. destruct (opt_truthy key) eqn:Hk.
  - assert (∃ bs, slot_content slot = Some bs ∧ NoDup bs) as (bs & Hc & Hnd).
    { destruct slot as [text|].
      - destruct Hs as (l & -> & Hl). exists l. split; [|done].
        apply JSON_parse_stringify.
      - exists []. split; [done|]. apply NoDup_nil_2. }
    rewrite (boot_with_key key slot bs Hk Hc). eexists. split; [done|].
    by split.
  - rewrite boot_without_key by done. eexists. split; [done|].
    split; [apply NoDup_nil_2|done].
Qed.

Lemma step_sound (key : option jsstring) (w : World) (ev : Event) :
  bookmarks_sound w → ∃ w', step key w ev = Some w' ∧ bookmarks_sound w'.
Proof.
  intros [Hb Hs].
  assert (Hother : ∀ ev', (∀ movieId, ev' ≠ ClickBookmark movieId) →
                          bookmarks_sound (exec (handle key ev') w)).
  { intros ev' Hne.
    destruct (handle_keeps_bookmarks key ev' w Hne) as [E1 E2].
    unfold bookmarks_sound. by rewrite E1, E2. }
  destruct ev; cbn [step].
  1-3, 5-7: by (eexists; split; [reflexivity|]; apply Hother).
  - eexists. split; [done|]. rewrite handle_toggle, toggleBookmark_world.
    pose proof (toggled_NoDup _ movieId Hb). split; [done|]. by eexists.
  - by apply boot_sound.
Qed.

Lemma run_sound (key : option jsstring) (evs : list Event) (w : World) :
  bookmarks_sound w → ∃ w', run key w evs = Some w' ∧ bookmarks_sound w'.
Proof.
  revert w. induction evs as [|ev evs IH]; intros w Hw.
  - by exists w.
  - destruct (step_sound key w ev Hw) as (w1 & Hs & Hw1).
    destruct (IH w1 Hw1) as (w2 & Hr & Hw2).
    exists w2. split; [|done]. simpl. by rewrite Hs.
Qed.

(** C8. From a first visit on (nothing stored yet), through any events
    and page reloads, with or without a credential, the session goes on
    and its [bookmarks] array never holds an identifier twice; and one more
    toggle, of any identifier, keeps it so. *)
Theorem bookmarks_never_repeat (key : option jsstring) (evs : list Event) :
  ∃ w, session key None evs = Some w
       ∧ NoDup (bookmarks (view w))
       ∧ ∀ movieId, NoDup (bookmarks (view (exec (toggleBookmark movieId) w))).
Proof.
  destruct (boot_sound key None I) as (w0 & Hb & Hw0).
  destruct (run_sound key evs w0 Hw0) as (w & Hr & [Hw _]).
  exists w. split_and!.
  - unfold session. by rewrite Hb.
  - done.
  - intros movieId. rewrite toggleBookmark_world. by apply toggled_NoDup.
Qed.

(** ** Worked examples *)

(** The example of the specification: fetched A, B, C with identifiers 1, 2,
    3 and bookmarks 3 and 1 display A then C. *)
Example displayed_A_C :
  displayedMovies
    (mkState [item 1 "A"; item 2 "B"; item 3 "C"] false [] [3; 1]%Z None None true)
  = [item 1 "A"; item 3 "C"].
Proof. reflexivity. Qed.

(** Toggling a bookmarked identifier twice keeps the set and moves the
    identifier to the end of the array. *)
Example toggle_twice_order :
  toggled (toggled [1; 2]%Z 1) 1 = [2; 1]%Z.
Proof. reflexivity. Qed.

Example stringify_example : JSON_stringify [3; -12; 0]%Z = lit "[3,-12,0]".
Proof. reflexivity. Qed.

Example parse_example : JSON_parse (lit "[3,-12,0]") = Some [3; -12; 0]%Z.
Proof. reflexivity. Qed.

Example parse_leading_zero : JSON_parse (lit "[03]") = None.
Proof. reflexivity. Qed.

Example trim_example : trim (lit "  a b  ") = lit "a b".
Proof. reflexivity. Qed.

(** * Further properties of the handlers *)

(** ** More on the bookmark toggle *)

Lemma array_filter_app {A} (p : A → bool) (l1 l2 : list A) :
  array_filter p (l1 ++ l2) = array_filter p l1 ++ array_filter p l2.
Proof.
  induction l1 as [|x l1 IH]; [done|]. simpl.
  destruct (p x); simpl; by rewrite IH.
Qed.

Lemma array_filter_twice {A} (p q : A → bool) (l : list A) :
  array_filter q (array_filter p l) = array_filter (λ x, p x && q x) l.
Proof.
  induction l as [|x l IH]; [done|]. simpl.
  destruct (p x); simpl; [destruct (q x)|]; by rewrite IH.
Qed.

Lemma array_filter_ext {A} (p q : A → bool) (l : list A) :
  (∀ x, p x = q x) → array_filter p l = array_filter q l.
Proof.
  intros H. induction l as [|x l IH]; [done|]. simpl. by rewrite H, IH.
Qed.

Lemma includes_toggled (bs : list Z) (movieId x : Z) :
  includes (toggled bs movieId) x
  = if (x =? movieId)%Z then negb (includes bs x) else includes bs x.
Proof.
  apply eq_true_iff_eq. rewrite includes_true_iff, elem_of_toggled.
  destruct (Z.eqb_spec x movieId) as [->|Hne].
  - rewrite negb_true_iff, includes_false_iff. intuition congruence.
  - rewrite includes_true_iff. intuition congruence.
Qed.

Lemma toggle_all_cons (movieId : Z) (ids : list Z) (w : World) :
  toggle_all (movieId :: ids) w = toggle_all ids (exec (toggleBookmark movieId) w).
Proof. reflexivity. Qed.

Lemma includes_toggle_all (ids : list Z) (w : World) (x : Z) :
  includes (bookmarks (view (toggle_all ids w))) x
  = xorb (includes (bookmarks (view w)) x) (Nat.odd (clicks ids x)).
Proof.
  revert w. induction ids as [|id ids IH]; intros w.
  - simpl. by rewrite xorb_false_r.
  - rewrite toggle_all_cons, IH, toggleBookmark_world. cbn [view bookmarks].
    rewrite includes_toggled. unfold clicks. cbn [count_occ].
    destruct (Z.eq_dec id x) as [->|Hne].
    + rewrite Z.eqb_refl, Nat.odd_succ, <- Nat.negb_odd.
      by destruct (includes _ x), (Nat.odd _).
    + by rewrite (proj2 (Z.eqb_neq x id)).
Qed.

(** X1. After a series of toggles an identifier is bookmarked exactly when
    its membership before the series and the parity of its clicks disagree:
    an odd number of clicks flips it, an even number leaves it, and clicks on
    other identifiers never touch it. *)
Theorem toggle_all_membership (ids : list Z) (w : World) (x : Z) :
  x ∈ bookmark_set (view (toggle_all ids w))
  ↔ xorb (includes (bookmarks (view w)) x) (Nat.odd (clicks ids x)) = true.
Proof.
  unfold bookmark_set.
  by rewrite elem_of_list_to_set, <- includes_true_iff, includes_toggle_all.
Qed.

(** X2. The order in which bookmarks are toggled does not matter for the
    Bookmark Set: two series of clicks that are rearrangements of each other
    end in the same set. *)
Theorem toggle_all_permutation (ids1 ids2 : list Z) (w : World) :
  ids1 ≡ₚ ids2 →
  bookmark_set (view (toggle_all ids1 w)) = bookmark_set (view (toggle_all ids2 w)).
Proof.
  intros Hp. unfold bookmark_set. apply set_eq. intros x.
  rewrite !elem_of_list_to_set, <- !includes_true_iff, !includes_toggle_all.
  unfold clicks.
  by rewrite (proj1 (Permutation_count_occ Z.eq_dec ids1 ids2) Hp x).
Qed.

Lemma toggle_all_permutation_witness :
  [1; 2; 1]%Z ≡ₚ [2; 1; 1]%Z
  ∧ bookmark_set (view (toggle_all [1; 2; 1]%Z (mkWorld initial_state None [] [] [] [])))
    = bookmark_set (view (toggle_all [2; 1; 1]%Z (mkWorld initial_state None [] [] [] []))).
Proof.
  assert (Hp : [1; 2; 1]%Z ≡ₚ [2; 1; 1]%Z) by apply Permutation_swap.
  split; [exact Hp|]. apply (toggle_all_permutation _ _ _ Hp).
Defined.

(** X3. A toggle never reorders the other bookmarks: with the toggled
    identifier left out, the array reads the same before and after. *)
Theorem toggleBookmark_keeps_order (movieId : Z) (w : World) :
  array_filter (other_than movieId)
    (bookmarks (view (exec (toggleBookmark movieId) w)))
  = array_filter (other_than movieId) (bookmarks (view w)).
Proof.
  rewrite toggleBookmark_world. cbn [view bookmarks]. unfold toggled.
  fold (other_than movieId). destruct (includes _ movieId).
  - rewrite array_filter_twice. apply array_filter_ext.
    intros x. by destruct (other_than movieId x).
  - rewrite array_filter_app. simpl. unfold other_than at 2.
    by rewrite Z.eqb_refl, app_nil_r.
Qed.

Lemma length_filter_out (bs : list Z) (x : Z) :
  NoDup bs → x ∈ bs → S (length (array_filter (other_than x) bs)) = length bs.
Proof.
  induction bs as [|y bs IH]; intros Hnd Hx; [by inversion Hx|].
  apply NoDup_cons in Hnd as [Hy Hnd]. simpl. unfold other_than at 1.
  destruct (Z.eqb_spec y x) as [->|Hne]; simpl.
  - f_equal. f_equal. apply array_filter_stdpp_id. intros z Hz.
    unfold other_than. apply negb_true_iff, Z.eqb_neq. by intros ->.
  - f_equal. apply IH; [done|]. apply elem_of_cons in Hx as [->|]; done.
Qed.

(** X4. On an array without repetition a toggle changes the number of
    bookmarks by exactly one: one fewer when the identifier was bookmarked,
    one more when it was not. *)
Theorem toggleBookmark_count (movieId : Z) (w : World) :
  NoDup (bookmarks (view w)) →
  let n := length (bookmarks (view w)) in
  let n' := length (bookmarks (view (exec (toggleBookmark movieId) w))) in
  if includes (bookmarks (view w)) movieId then S n' = n else n' = S n.
Proof.
  intros Hnd. rewrite toggleBookmark_world. cbn [view bookmarks].
  unfold toggled. destruct (includes _ movieId) eqn:E.
  - apply includes_true_iff in E. by apply length_filter_out.
  - rewrite length_app. simpl. lia.
Qed.

Lemma toggleBookmark_count_witness :
  NoDup [5; 9]%Z
  ∧ S (length (bookmarks (view (exec (toggleBookmark 9)
         (mkWorld (mkState [] false [] [5; 9]%Z None None false) None [] [] [] [])))))
    = 2%nat.
Proof.
  assert (Hnd : NoDup [5; 9]%Z).
  { apply NoDup_cons. split; [|apply NoDup_singleton].
    intros H%list_elem_of_singleton. discriminate. }
  split; [exact Hnd|].
  apply (toggleBookmark_count 9
           (mkWorld (mkState [] false [] [5; 9]%Z None None false) None [] [] [] [])
           Hnd).
Defined.

(** X5. In the bookmarks-only view, un-bookmarking an item takes exactly
    the cards with that identifier off the displayed list and leaves the
    other cards in place; with the view off, a toggle does not change the
    displayed list at all. *)
Theorem toggleBookmark_displayed (movieId : Z) (w : World) :
  let w' := exec (toggleBookmark movieId) w in
  (showBookmarksOnly (view w) = false →
     displayedMovies (view w') = displayedMovies (view w))
  ∧ (showBookmarksOnly (view w) = true →
     includes (bookmarks (view w)) movieId = true →
     displayedMovies (view w')
     = array_filter (λ movie, other_than movieId (movie_id movie))
         (displayedMovies (view w))).
Proof.
  intros w'. subst w'. rewrite toggleBookmark_world.
  unfold displayedMovies. cbn [view bookmarks movies showBookmarksOnly].
  split; intros Hflag; rewrite Hflag; [done|]. intros Hin.
  rewrite array_filter_twice. apply array_filter_ext. intros movie.
  rewrite includes_toggled. unfold other_than.
  destruct (Z.eqb_spec (movie_id movie) movieId) as [->|Hne]; simpl.
  - by rewrite Hin.
  - by rewrite andb_true_r.
Qed.

Lemma toggleBookmark_displayed_witness :
  let w := mkWorld (mkState [item 1 "A"; item 2 "B"; item 3 "C"] false []
                            [3; 1]%Z None None true) None [] [] [] [] in
  showBookmarksOnly (view w) = true
  ∧ includes (bookmarks (view w)) 1 = true
  ∧ displayedMovies (view (exec (toggleBookmark 1) w)) = [item 3 "C"].
Proof.
  intros w. split; [reflexivity|]. split; [reflexivity|].
  destruct (toggleBookmark_displayed 1 w) as [_ H].
  rewrite (H eq_refl eq_refl). reflexivity.
Defined.

(** ** What the page shows *)

Lemma array_filter_nil_iff {A} (p : A → bool) (l : list A) :
  array_filter p l = [] ↔ ∀ x, x ∈ l → p x = false.
Proof.
  split.
  - intros H x Hx. destruct (p x) eqn:E; [|done].
    assert (Hin : x ∈ array_filter p l) by by apply elem_of_array_filter.
    rewrite H in Hin. inversion Hin.
  - intros H. induction l as [|x l IH]; [done|]. simpl.
    rewrite (H x) by left. apply IH. intros y Hy. apply H. by right.
Qed.

(** X6. The "no bookmarked movies yet" panel is shown exactly when nothing
    is loading, the error slot holds no text, the bookmarks-only view is on
    and none of the fetched items is bookmarked. *)
Theorem no_bookmarks_panel_iff (s : AppState) :
  render_main s = NoBookmarksPanel ↔
  loading s = false
  ∧ default [] (error s) = []
  ∧ showBookmarksOnly s = true
  ∧ ∀ movie, movie ∈ movies s → includes (bookmarks s) (movie_id movie) = false.
Proof.
  rewrite <- array_filter_nil_iff. unfold render_main, displayedMovies.
  destruct (loading s); [split; [done|by intros [? _]]|].
  assert (Hcards :
    (if (length (if showBookmarksOnly s
                 then array_filter (λ movie, includes (bookmarks s) (movie_id movie)) (movies s)
                 else movies s) =? 0)%nat && showBookmarksOnly s
     then NoBookmarksPanel
     else Grid (if showBookmarksOnly s
                then array_filter (λ movie, includes (bookmarks s) (movie_id movie)) (movies s)
                else movies s)) = NoBookmarksPanel
    ↔ showBookmarksOnly s = true
      ∧ array_filter (λ movie, includes (bookmarks s) (movie_id movie)) (movies s) = []).
  { destruct (showBookmarksOnly s).
    - destruct (array_filter _ (movies s)); simpl; split; try done.
      by intros [_ ?].
    - rewrite andb_false_r. split; [done|by intros [? _]]. }
  destruct (error s) as [[|c e]|]; simpl.
  - rewrite Hcards. tauto.
  - split; [done|]. by intros (_ & ? & _).
  - rewrite Hcards. tauto.
Qed.

(** ** How requests end *)

(** X7. Every way a request can fail ends the same way, for the trending
    fetch and for the search alike: a rejected [fetch], a non-success status
    and an unreadable body all clear the item list, put the fetch's own
    failure text in the error slot, raise one error notification with that
    text, switch the spinner off, and leave bookmarks and storage alone. *)
Theorem failures_end_alike (k : Pending) (o : Outcome) (w : World) :
  failed o →
  let settled := match k with
                 | AwaitTrending => fetchTrendingMovies_settled
                 | AwaitSearch => searchMovies_settled
                 end in
  let text := match k with
              | AwaitTrending => FAILED_TO_FETCH
              | AwaitSearch => FAILED_TO_SEARCH
              end in
  let w' := exec (settled o) w in
  w' = exec (settled NetworkFailure) w
  ∧ movies (view w') = []
  ∧ error (view w') = Some text
  ∧ loading (view w') = false
  ∧ toasts w' = toasts w ++ [ToastError text]
  ∧ bookmarks (view w') = bookmarks (view w)
  ∧ storage w' = storage w.
Proof.
  intros Ho. destruct o as [|ok status body]; destruct k; simpl in Ho.
  1-2: by repeat split.
  all: destruct Ho as [->| ->]; [|destruct ok]; by repeat split.
Qed.

Lemma failures_end_alike_witness :
  failed (Response false 404 (Some (Some [])))
  ∧ error (view (exec (searchMovies_settled (Response false 404 (Some (Some []))))
                      (mkWorld initial_state None [] [] [] [])))
    = Some FAILED_TO_SEARCH.
Proof.
  assert (Hf : failed (Response false 404 (Some (Some [])))) by (left; reflexivity).
  split; [exact Hf|].
  apply (failures_end_alike AwaitSearch _ (mkWorld initial_state None [] [] [] []) Hf).
Defined.

Lemma settle_last (key : option jsstring) (k : Pending) (o : Outcome) (w : World) :
  exec (handle key (Settle (length (inflight w)) o))
       (mkWorld (view w) (storage w) (toasts w) (network w)
                (inflight w ++ [k]) (console w))
  = exec (match k with
          | AwaitTrending => fetchTrendingMovies_settled o
          | AwaitSearch => searchMovies_settled o
          end) w.
Proof.
  assert (Hl : (inflight w ++ [k]) !! length (inflight w) = Some k)
    by apply list_lookup_middle, eq_refl.
  assert (Hd : delete (length (inflight w)) (inflight w ++ [k]) = inflight w).
  { rewrite delete_middle. apply app_nil_r. }
  unfold handle, exec, eff_bind, take_inflight.
  cbn [inflight view storage toasts network console].
  rewrite Hl, Hd. by destruct w.
Qed.

(** The four ways a change of the search field ends: no credential, a
    blank text, a text that cannot be URI-encoded, a request sent. *)
Lemma change_search_world (key : option jsstring) (q : jsstring) (w : World) :
  exec (handle key (ChangeSearch q)) w
  = if opt_truthy key then
      if str_truthy (trim q) then
        if isWellFormed q then
          mkWorld (mkState (movies (view w)) true q (bookmarks (view w))
                           (selectedMovie (view w)) None false)
                  (storage w) (toasts w) (network w ++ [GetSearch key q])
                  (inflight w ++ [AwaitSearch]) (console w)
        else
          mkWorld (mkState [] false q (bookmarks (view w))
                           (selectedMovie (view w)) (Some FAILED_TO_SEARCH) false)
                  (storage w) (toasts w ++ [ToastError FAILED_TO_SEARCH])
                  (network w) (inflight w)
                  (console w ++ [lit "Error searching movies:"])
      else
        mkWorld (mkState (movies (view w)) true [] (bookmarks (view w))
                         (selectedMovie (view w)) None false)
                (storage w) (toasts w) (network w ++ [GetTrending key])
                (inflight w ++ [AwaitTrending]) (console w)
    else
      mkWorld (mkState (movies (view w)) (loading (view w)) q (bookmarks (view w))
                       (selectedMovie (view w)) (Some API_KEY_MISSING)
                       (showBookmarksOnly (view w)))
              (storage w) (toasts w) (network w) (inflight w) (console w).
Proof.
  unfold handle, searchMovies, fetchTrendingMovies.
  destruct (opt_truthy key); [|done]. eff_unfold.
  destruct (str_truthy (trim q)); [|done].
  by destruct (isWellFormed q).
Qed.

Lemma search_failure (o : Outcome) (w : World) :
  failed o →
  exec (searchMovies_settled o) w = exec (searchMovies_settled NetworkFailure) w.
Proof.
  destruct o as [|ok status body]; [done|].
  intros [->| ->]; [done|by destruct ok].
Qed.

Lemma not_blank_trim (q : jsstring) : ¬ blank q → str_truthy (trim q) = true.
Proof.
  intros Hq. destruct (trim q) eqn:E; [|done].
  destruct Hq. by apply trim_nil_iff.
Qed.

Lemma render_grid (s : AppState) :
  loading s = false → error s = None → showBookmarksOnly s = false →
  render_main s = Grid (movies s).
Proof.
  intros Hl He Hf. unfold render_main, displayedMovies.
  by rewrite Hl, He, Hf, andb_false_r.
Qed.

(** X8. One trending cycle.  With a credential, a click on the home button
    passes one trending request to [fetch], clears the search field, leaves
    the bookmarks-only view and shows the spinner; when that request comes
    back with results the page shows exactly those results as a grid, and no
    request of the cycle is left in flight. *)
Theorem trending_cycle (key : option jsstring) (status : Z) (rs : list Movie)
    (w : World) :
  opt_truthy key = true →
  let w1 := exec (handle key ClickHome) w in
  let w2 := exec (handle key (Settle (length (inflight w)) (succeeded status rs))) w1 in
  network w1 = network w ++ [GetTrending key]
  ∧ render_main (view w1) = Spinner
  ∧ searchQuery (view w1) = []
  ∧ render_main (view w2) = Grid rs
  ∧ inflight w2 = inflight w
  ∧ bookmarks (view w2) = bookmarks (view w).
Proof.
  intros Hk w1 w2.
  assert (E1 : w1 = mkWorld (mkState (movies (view w)) true [] (bookmarks (view w))
                               (selectedMovie (view w)) None false)
                      (storage w) (toasts w) (network w ++ [GetTrending key])
                      (inflight w ++ [AwaitTrending]) (console w)).
  { subst w1. unfold handle, fetchTrendingMovies. by rewrite Hk. }
  subst w2. rewrite E1.
  pose proof (settle_last key AwaitTrending (succeeded status rs)
    (mkWorld (mkState (movies (view w)) true [] (bookmarks (view w))
                (selectedMovie (view w)) None false)
             (storage w) (toasts w) (network w ++ [GetTrending key])
             (inflight w) (console w))) as E2.
  cbn [inflight view storage toasts network console] in E2. rewrite E2.
  split_and!; try done. by apply render_grid.
Qed.

Lemma trending_cycle_witness :
  opt_truthy (Some (lit "k")) = true
  ∧ render_main (view (exec (handle (Some (lit "k"))
                               (Settle 0 (succeeded 200 [item 1 "A"])))
                            (exec (handle (Some (lit "k")) ClickHome)
                                  (mkWorld initial_state None [] [] [] []))))
    = Grid [item 1 "A"].
Proof.
  split; [reflexivity|].
  apply (trending_cycle (Some (lit "k")) 200 [item 1 "A"]
           (mkWorld initial_state None [] [] [] []) eq_refl).
Defined.

(** X9. One search cycle.  With a credential, typing a text that is not
    blank keeps the text in the search field.  When the text can be
    URI-encoded, one search request goes to [fetch], carrying the text as
    typed (not trimmed), and the spinner shows; when the request comes back
    with items the page shows them as a grid, with an empty array it shows
    the no-results text, and on a failure the search failure text, neither
    with the key instructions.  When the text holds a lone surrogate,
    building the URL throws: nothing is sent, nothing is left in flight, the
    item list is cleared and the search failure text and notification show
    at once. *)
Theorem search_cycle (key : option jsstring) (q : jsstring) (status : Z)
    (w : World) :
  opt_truthy key = true → ¬ blank q →
  let w1 := exec (handle key (ChangeSearch q)) w in
  let settle o := exec (handle key (Settle (length (inflight w)) o)) w1 in
  (isWellFormed q = true →
     network w1 = network w ++ [GetSearch key q]
     ∧ render_main (view w1) = Spinner
     ∧ searchQuery (view w1) = q
     ∧ (∀ rs, rs ≠ [] → render_main (view (settle (succeeded status rs))) = Grid rs)
     ∧ render_main (view (settle (succeeded status [])))
       = ErrorPanel NO_MOVIES_FOR_SEARCH false
     ∧ (∀ o, failed o →
             render_main (view (settle o)) = ErrorPanel FAILED_TO_SEARCH false))
  ∧ (isWellFormed q = false →
     network w1 = network w
     ∧ inflight w1 = inflight w
     ∧ searchQuery (view w1) = q
     ∧ movies (view w1) = []
     ∧ toasts w1 = toasts w ++ [ToastError FAILED_TO_SEARCH]
     ∧ render_main (view w1) = ErrorPanel FAILED_TO_SEARCH false).
Proof.
  intros Hk Hq w1 settle. split; intros Hwf.
  - assert (E1 : w1 = mkWorld (mkState (movies (view w)) true q (bookmarks (view w))
                                 (selectedMovie (view w)) None false)
                        (storage w) (toasts w) (network w ++ [GetSearch key q])
                        (inflight w ++ [AwaitSearch]) (console w)).
    { subst w1. by rewrite change_search_world, Hk, (not_blank_trim q Hq), Hwf. }
    assert (E2 : ∀ o, settle o
       = exec (searchMovies_settled o)
           (mkWorld (mkState (movies (view w)) true q (bookmarks (view w))
                      (selectedMovie (view w)) None false)
                    (storage w) (toasts w) (network w ++ [GetSearch key q])
                    (inflight w) (console w))).
    { intros o. subst settle. cbv beta. rewrite E1.
      apply (settle_last key AwaitSearch o
        (mkWorld (mkState (movies (view w)) true q (bookmarks (view w))
                    (selectedMovie (view w)) None false)
                 (storage w) (toasts w) (network w ++ [GetSearch key q])
                 (inflight w) (console w))). }
    split_and!.
    + by rewrite E1.
    + by rewrite E1.
    + by rewrite E1.
    + intros rs Hrs. rewrite E2. destruct rs as [|r rs]; [done|].
      by apply render_grid.
    + by rewrite E2.
    + intros o Ho. rewrite E2. rewrite (search_failure o _ Ho). done.
  - assert (E1 : w1 = mkWorld (mkState [] false q (bookmarks (view w))
                                 (selectedMovie (view w))
                                 (Some FAILED_TO_SEARCH) false)
                        (storage w) (toasts w ++ [ToastError FAILED_TO_SEARCH])
                        (network w) (inflight w)
                        (console w ++ [lit "Error searching movies:"])).
    { subst w1. by rewrite change_search_world, Hk, (not_blank_trim q Hq), Hwf. }
    rewrite E1. by repeat split.
Qed.

Lemma search_cycle_witness :
  opt_truthy (Some (lit "k")) = true
  ∧ ¬ blank (lit " dune")
  ∧ ¬ blank [0xD800]
  ∧ network (exec (handle (Some (lit "k")) (ChangeSearch (lit " dune")))
                  (mkWorld initial_state None [] [] [] []))
    = [GetSearch (Some (lit "k")) (lit " dune")]
  ∧ network (exec (handle (Some (lit "k")) (ChangeSearch [0xD800]))
                  (mkWorld initial_state None [] [] [] []))
    = [].
Proof.
  assert (Hq : ¬ blank (lit " dune")) by (intros H; discriminate H).
  assert (Hs : ¬ blank [0xD800]) by (intros H; discriminate H).
  split; [reflexivity|]. split; [exact Hq|]. split; [exact Hs|].
  destruct (search_cycle (Some (lit "k")) (lit " dune") 200
              (mkWorld initial_state None [] [] [] []) eq_refl Hq) as (H & _).
  destruct (search_cycle (Some (lit "k")) [0xD800] 200
              (mkWorld initial_state None [] [] [] []) eq_refl Hs) as (_ & H').
  destruct (H eq_refl) as (Hn & _). destruct (H' eq_refl) as (Hn' & _).
  split; [exact Hn|exact Hn'].
Defined.

(** X10. Requests are not cancelled and not told apart when they come back:
    of two requests in flight, the one that settles last decides the item
    list, whichever was issued first. *)
Theorem last_settled_wins (key : option jsstring) (k1 k2 : Pending)
    (st1 st2 : Z) (rs1 rs2 : list Movie) (w : World) :
  inflight w = [k1; k2] →
  let in_order :=
    exec (handle key (Settle 0 (succeeded st2 rs2)))
      (exec (handle key (Settle 0 (succeeded st1 rs1))) w) in
  let out_of_order :=
    exec (handle key (Settle 0 (succeeded st1 rs1)))
      (exec (handle key (Settle 1 (succeeded st2 rs2))) w) in
  movies (view in_order) = rs2 ∧ inflight in_order = []
  ∧ movies (view out_of_order) = rs1 ∧ inflight out_of_order = [].
Proof.
  destruct w as [s sl ts nw fl cs]. simpl. intros ->.
  destruct k1, k2, rs1, rs2; by repeat split.
Qed.

Lemma last_settled_wins_witness :
  inflight (mkWorld initial_state None [] [] [AwaitTrending; AwaitSearch] [])
  = [AwaitTrending; AwaitSearch]
  ∧ movies (view (exec (handle None (Settle 0 (succeeded 200 [item 1 "A"])))
       (exec (handle None (Settle 1 (succeeded 200 [item 2 "B"])))
          (mkWorld initial_state None [] [] [AwaitTrending; AwaitSearch] []))))
    = [item 1 "A"].
Proof.
  split; [reflexivity|].
  destruct (last_settled_wins None AwaitTrending AwaitSearch 200 200
              [item 1 "A"] [item 2 "B"]
              (mkWorld initial_state None [] [] [AwaitTrending; AwaitSearch] [])
              eq_refl) as (_ & _ & H & _).
  exact H.
Defined.

(** ** Invariants of a session *)

Lemma boot_cases (key slot : option jsstring) (w : World) :
  boot key slot = Some w →
  (opt_truthy key = false
   ∧ w = mkWorld (mkState [] false [] [] None (Some API_KEY_MISSING) false)
                 slot [] [] [] [])
  ∨ (opt_truthy key = true
     ∧ ∃ bs, w = mkWorld (mkState [] true [] bs None None false)
                         slot [] [GetTrending key] [AwaitTrending] []).
Proof.
  destruct (opt_truthy key) eqn:Hk.
  - intros Hb. right. split; [done|].
    destruct slot as [[|c text]|].
    + exists []. unfold boot, boot_with, mount_effect_with, fetchTrendingMovies in Hb.
      rewrite Hk in Hb. by injection Hb as <-.
    + destruct (JSON_parse (c :: text)) as [bs|] eqn:Hp.
      * exists bs. rewrite (boot_with_key key (Some (c :: text)) bs Hk Hp) in Hb.
        by injection Hb as <-.
      * unfold boot, boot_with, mount_effect_with, fetchTrendingMovies in Hb.
        rewrite Hk in Hb. revert Hb. eff_unfold. cbn [str_truthy].
        unfold JSON_parse_with. by rewrite Hp.
    + exists []. rewrite (boot_with_key key None [] Hk eq_refl) in Hb.
      by injection Hb as <-.
  - rewrite boot_without_key by done. intros [= <-]. by left.
Qed.

Lemma run_invariant (key : option jsstring) (P : World → Prop) :
  (∀ w ev w', P w → step key w ev = Some w' → P w') →
  ∀ evs w w', P w → run key w evs = Some w' → P w'.
Proof.
  intros Hstep evs. induction evs as [|ev evs IH]; intros w w' Hw Hr.
  - by injection Hr as <-.
  - simpl in Hr. destruct (step key w ev) as [w1|] eqn:Hs; [|done].
    apply (IH w1 w'); [|done]. by apply (Hstep w ev).
Qed.

Lemma session_invariant (key : option jsstring) (P : World → Prop) :
  (∀ slot w, boot key slot = Some w → P w) →
  (∀ w ev, P w → P (exec (handle key ev) w)) →
  ∀ slot evs w, session key slot evs = Some w → P w.
Proof.
  intros Hboot Hhandle slot evs w Hs. unfold session in Hs.
  destruct (boot key slot) as [w0|] eqn:Hb; [|done]. simpl in Hs.
  apply (run_invariant key P) with (evs := evs) (w := w0);
    [|exact (Hboot slot w0 Hb)|done].
  intros w1 ev w2 Hw1 Hst. pose proof (Hhandle w1 ev Hw1) as Hev.
  destruct ev; cbn [step] in Hst; try (injection Hst as <-; exact Hev).
  exact (Hboot (storage w1) w2 Hst).
Qed.

Lemma delete_lookup_None {A} (l : list A) (n : nat) :
  l !! n = None → delete n l = l.
Proof.
  revert n. induction l as [|x l IH]; intros [|n] H; try done.
  simpl in *. f_equal. by apply IH.
Qed.

Lemma settled_loading (k : Pending) (o : Outcome) (w : World) :
  loading (view (exec (match k with
                       | AwaitTrending => fetchTrendingMovies_settled o
                       | AwaitSearch => searchMovies_settled o
                       end) w)) = false.
Proof.
  destruct k, o as [|[] status [[[]|]|]]; done.
Qed.

Lemma handle_settle (key : option jsstring) (n : nat) (o : Outcome) (w : World) :
  exec (handle key (Settle n o)) w
  = match inflight w !! n with
    | Some k =>
        exec (match k with
              | AwaitTrending => fetchTrendingMovies_settled o
              | AwaitSearch => searchMovies_settled o
              end)
          (mkWorld (view w) (storage w) (toasts w) (network w)
                   (delete n (inflight w)) (console w))
    | None => w
    end.
Proof.
  unfold handle, exec, eff_bind, take_inflight.
  destruct (inflight w !! n) as [[]|] eqn:E; try done.
  rewrite (delete_lookup_None _ _ E). by destruct w.
Qed.

(** X11. The spinner cannot get stuck on: at any point of any session, once
    no request is in flight the loading flag is off and the page shows
    something other than the spinner. *)
Theorem no_spinner_when_idle (key slot : option jsstring) (evs : list Event)
    (w : World) :
  session key slot evs = Some w →
  inflight w = [] →
  loading (view w) = false ∧ render_main (view w) ≠ Spinner.
Proof.
  intros Hs Hi.
  assert (Hl : loading (view w) = false).
  { revert Hi. revert slot evs w Hs.
    apply (session_invariant key
             (λ w, inflight w = [] → loading (view w) = false)).
    - intros slot w [(_ & ->)|(_ & bs & ->)]%boot_cases; done.
    - intros w ev Hw. destruct ev; try done.
      + unfold handle, fetchTrendingMovies.
        destruct (opt_truthy key); [|done].
        eff_unfold. by intros [_ [=]]%app_eq_nil.
      + rewrite change_search_world.
        destruct (opt_truthy key); [|done].
        destruct (str_truthy (trim value)); [destruct (isWellFormed value)|];
          cbn [inflight view loading]; try done;
          by intros [_ [=]]%app_eq_nil.
      + rewrite handle_settle. destruct (inflight w !! n) as [k|]; [|done].
        intros _. apply settled_loading. }
  split; [done|]. unfold render_main. rewrite Hl.
  by repeat case_match.
Qed.

Lemma no_spinner_when_idle_witness :
  let w := mkWorld (mkState [] false [] [] None (Some FAILED_TO_FETCH) false)
                   None [ToastError FAILED_TO_FETCH]
                   [GetTrending (Some (lit "k"))] []
                   [lit "Error fetching trending movies:"] in
  session (Some (lit "k")) None [Settle 0 NetworkFailure] = Some w
  ∧ inflight w = []
  ∧ loading (view w) = false.
Proof.
  intros w.
  assert (Hs : session (Some (lit "k")) None [Settle 0 NetworkFailure] = Some w)
    by reflexivity.
  split; [exact Hs|]. split; [reflexivity|].
  apply (no_spinner_when_idle (Some (lit "k")) None [Settle 0 NetworkFailure] w
           Hs eq_refl).
Defined.

Lemma settled_known_error (key : option jsstring) (k : Pending) (o : Outcome)
    (w : World) :
  known_error key (error (view w)) →
  known_error key
    (error (view (exec (match k with
                        | AwaitTrending => fetchTrendingMovies_settled o
                        | AwaitSearch => searchMovies_settled o
                        end) w))).
Proof.
  intros Hw. unfold known_error.
  destruct k, o as [|[] status [[[]|]|]]; cbn; tauto.
Qed.

Lemma known_error_session (key slot : option jsstring) (evs : list Event)
    (w : World) :
  session key slot evs = Some w → known_error key (error (view w)).
Proof.
  revert slot evs w. apply session_invariant.
  - intros slot w [(Hk & ->)|(_ & bs & ->)]%boot_cases; unfold known_error;
      cbn; tauto.
  - intros w ev Hw. destruct ev; try done.
    + unfold handle, fetchTrendingMovies, known_error.
      destruct (opt_truthy key); cbn; tauto.
    + rewrite change_search_world. unfold known_error.
      destruct (opt_truthy key); [|cbn; tauto].
      destruct (str_truthy (trim value)); [destruct (isWellFormed value)|];
        cbn; tauto.
    + rewrite handle_settle. destruct (inflight w !! n) as [k|]; [|done].
      by apply settled_known_error.
Qed.

(** X12. The instructions for getting a key accompany the missing-key
    message and no other: at any point of any session, an error panel shows
    them exactly when its text is the missing-key text, and that only
    happens when the credential is missing. *)
Theorem key_instructions_only_without_key (key slot : option jsstring)
    (evs : list Event) (w : World) (msg : jsstring) (instructions : bool) :
  session key slot evs = Some w →
  render_main (view w) = ErrorPanel msg instructions →
  (instructions = true ↔ msg = API_KEY_MISSING)
  ∧ (instructions = true → opt_truthy key = false).
Proof.
  intros Hs Hr. pose proof (known_error_session key slot evs w Hs) as He.
  unfold render_main in Hr. destruct (loading (view w)); [done|].
  destruct (error (view w)) as [e|] eqn:E; [|by repeat case_match].
  destruct (str_truthy e); [|by repeat case_match].
  injection Hr as <- <-.
  destruct He as [He|[He|[He|[He|[He|[He Hk]]]]]]; try done;
    injection He as ->; split; try done; split; done.
Qed.

Lemma key_instructions_only_without_key_witness :
  ∃ w, session None None [ClickHome] = Some w
       ∧ render_main (view w) = ErrorPanel API_KEY_MISSING true
       ∧ opt_truthy None = false.
Proof.
  eexists. split; [reflexivity|]. split; [reflexivity|].
  apply (key_instructions_only_without_key None None [ClickHome] _
           API_KEY_MISSING true eq_refl eq_refl).
  reflexivity.
Defined.

(** X13. Every request a session passes to [fetch] carries the configured
    credential, which is then not empty, and every search request carries a
    text with some character that is not white space: no request goes out
    without a key and no empty-query search is ever sent. *)
Theorem requests_well_formed (key slot : option jsstring) (evs : list Event)
    (w : World) :
  session key slot evs = Some w → Forall (request_ok key) (network w).
Proof.
  revert slot evs w. apply session_invariant.
  - intros slot w [(_ & ->)|(Hk & bs & ->)]%boot_cases; cbn.
    + constructor.
    + by repeat constructor.
  - intros w ev Hw. destruct ev; try done.
    + unfold handle, fetchTrendingMovies.
      destruct (opt_truthy key) eqn:Hk; [|done]. eff_unfold.
      apply Forall_app. split; [done|]. by repeat constructor.
    + rewrite change_search_world.
      destruct (opt_truthy key) eqn:Hk; [|done].
      destruct (str_truthy (trim value)) eqn:Ht;
        [destruct (isWellFormed value); [|done]|]; cbn [network];
        (apply Forall_app; split; [done|]); repeat constructor; try done.
      intros Hb%trim_nil_iff. by rewrite Hb in Ht.
    + rewrite handle_settle. destruct (inflight w !! n) as [k|]; [|done].
      by destruct k, o as [|[] status [[[]|]|]].
Qed.

Lemma requests_well_formed_witness :
  ∃ w, session (Some (lit "k")) None [ChangeSearch (lit "dune"); ChangeSearch (lit " ")]
       = Some w
       ∧ Forall (request_ok (Some (lit "k"))) (network w).
Proof.
  eexists. split; [reflexivity|].
  apply (requests_well_formed (Some (lit "k")) None
           [ChangeSearch (lit "dune"); ChangeSearch (lit " ")] _ eq_refl).
Defined.

Lemma step_keeps_storage_in_step (key : option jsstring) (w w' : World)
    (ev : Event) :
  opt_truthy key = true →
  slot_content (storage w) = Some (bookmarks (view w)) →
  step key w ev = Some w' →
  slot_content (storage w') = Some (bookmarks (view w')).
Proof.
  intros Hk Hw Hs.
  assert (Hother : (∀ movieId, ev ≠ ClickBookmark movieId) →
            slot_content (storage (exec (handle key ev) w))
            = Some (bookmarks (view (exec (handle key ev) w)))).
  { intros Hne. destruct (handle_keeps_bookmarks key ev w Hne) as [E1 E2].
    by rewrite E1, E2. }
  destruct ev; cbn [step] in Hs.
  1-3, 5-7: by (injection Hs as <-; apply Hother).
  - injection Hs as <-. rewrite toggleBookmark_world.
    apply JSON_parse_stringify.
  - rewrite (boot_with_key key (storage w) _ Hk Hw) in Hs.
    by injection Hs as <-.
Qed.

(** X14. With a credential, storage and memory agree through a whole
    session, not only after a toggle: started over a slot that is absent or
    holds a serialised array, whatever the user does next, the slot
    deserialises to the [bookmarks] array in memory; so a page reload at that
    point comes up with the very same array. *)
Theorem bookmarks_survive_reload (key slot : option jsstring) (bs : list Z)
    (evs : list Event) (w : World) :
  opt_truthy key = true →
  slot_content slot = Some bs →
  session key slot evs = Some w →
  slot_content (storage w) = Some (bookmarks (view w))
  ∧ ∃ w', step key w ReloadPage = Some w'
          ∧ bookmarks (view w') = bookmarks (view w)
          ∧ storage w' = storage w.
Proof.
  intros Hk Hslot Hs.
  assert (Hw : slot_content (storage w) = Some (bookmarks (view w))).
  { unfold session in Hs. rewrite (boot_with_key key slot bs Hk Hslot) in Hs.
    simpl in Hs. revert Hs.
    apply (run_invariant key
             (λ w, slot_content (storage w) = Some (bookmarks (view w)))).
    - intros w1 ev w2. by apply step_keeps_storage_in_step.
    - done. }
  split; [done|]. cbn [step].
  rewrite (boot_with_key key (storage w) _ Hk Hw). by eexists.
Qed.

Lemma bookmarks_survive_reload_witness :
  let key := Some (lit "k") in
  let w := mkWorld (mkState [] true [] [8%Z] None None false)
                   (Some (JSON_stringify [8%Z]))
                   [ToastSuccess ADDED_TO_BOOKMARKS]
                   [GetTrending key] [AwaitTrending] [] in
  opt_truthy key = true
  ∧ slot_content None = Some []
  ∧ session key None [ClickBookmark 8] = Some w
  ∧ ∃ w', step key w ReloadPage = Some w' ∧ bookmarks (view w') = [8%Z].
Proof.
  intros key w.
  assert (Hs : session key None [ClickBookmark 8] = Some w) by reflexivity.
  split; [reflexivity|]. split; [reflexivity|]. split; [exact Hs|].
  destruct (bookmarks_survive_reload key None [] [ClickBookmark 8] w
              eq_refl eq_refl Hs) as (_ & w' & Hst & Hb & _).
  exists w'. split; [exact Hst|exact Hb].
Defined.

Lemma handle_keeps_selected (key : option jsstring) (ev : Event) (w : World) :
  keeps_modal ev →
  selectedMovie (view (exec (handle key ev) w)) = selectedMovie (view w).
Proof.
  intros Hev. destruct ev; try done.
  - unfold handle, fetchTrendingMovies. by destruct (opt_truthy key).
  - rewrite change_search_world.
    destruct (opt_truthy key); [|done].
    by destruct (str_truthy (trim value)); [destruct (isWellFormed value)|].
  - rewrite handle_settle. destruct (inflight w !! n) as [k|]; [|done].
    by destruct k, o as [|[] status [[[]|]|]].
Qed.

(** X15. The detail view stays as it is through everything but its own
    buttons: after any events other than opening a detail view, closing it
    or reloading the page, the selected item is the one selected before. *)
Theorem selected_movie_stable (key : option jsstring) (evs : list Event)
    (w : World) :
  Forall keeps_modal evs →
  ∃ w', run key w evs = Some w'
        ∧ selectedMovie (view w') = selectedMovie (view w).
Proof.
  intros Hevs. revert w. induction Hevs as [|ev evs Hev _ IH]; intros w.
  - by exists w.
  - assert (Hst : step key w ev = Some (exec (handle key ev) w))
      by by destruct ev.
    pose proof (handle_keeps_selected key ev w Hev) as Hsel.
    destruct (IH (exec (handle key ev) w)) as (w' & Hr & Hw').
    exists w'. split; [|congruence]. simpl. by rewrite Hst.
Qed.

Lemma selected_movie_stable_witness :
  Forall keeps_modal [ChangeSearch (lit "dune"); ClickBookmark 3; Settle 0 NetworkFailure]
  ∧ ∃ w', run (Some (lit "k"))
            (mkWorld (mkState [] false [] [] (Some (item 3 "C")) None false)
                     None [] [] [] [])
            [ChangeSearch (lit "dune"); ClickBookmark 3; Settle 0 NetworkFailure]
          = Some w'
          ∧ selectedMovie (view w') = Some (item 3 "C").
Proof.
  assert (H : Forall keeps_modal
                [ChangeSearch (lit "dune"); ClickBookmark 3; Settle 0 NetworkFailure])
    by (repeat constructor).
  split; [exact H|].
  apply (selected_movie_stable (Some (lit "k")) _
           (mkWorld (mkState [] false [] [] (Some (item 3 "C")) None false)
                    None [] [] [] []) H).
Defined.

(** X16. Only a bookmark click or a reload changes the bookmarks: through
    any series of home clicks, searches, filter clicks, detail views and
    settling requests, successful or failed, the [bookmarks] array and the
    storage slot stay exactly as they were. *)
Theorem bookmarks_change_only_by_toggle (key : option jsstring)
    (evs : list Event) (w : World) :
  Forall keeps_bookmarks evs →
  ∃ w', run key w evs = Some w'
        ∧ bookmarks (view w') = bookmarks (view w)
        ∧ storage w' = storage w.
Proof.
  intros Hevs. revert w. induction Hevs as [|ev evs Hev _ IH]; intros w.
  - by exists w.
  - assert (Hst : step key w ev = Some (exec (handle key ev) w))
      by by destruct ev.
    destruct (handle_keeps_bookmarks key ev w) as [E1 E2].
    { intros movieId ->. apply Hev. }
    destruct (IH (exec (handle key ev) w)) as (w' & Hr & Hb & Hsl).
    exists w'. split_and!; [|congruence..]. simpl. by rewrite Hst.
Qed.

Lemma bookmarks_change_only_by_toggle_witness :
  Forall keeps_bookmarks [ClickHome; Settle 0 (succeeded 200 [item 1 "A"]); ClickBookmarksFilter]
  ∧ ∃ w', run (Some (lit "k"))
            (mkWorld (mkState [] false [] [1%Z] None None false)
                     (Some (lit "[1]")) [] [] [] [])
            [ClickHome; Settle 0 (succeeded 200 [item 1 "A"]); ClickBookmarksFilter]
          = Some w'
          ∧ bookmarks (view w') = [1%Z]
          ∧ storage w' = Some (lit "[1]").
Proof.
  assert (H : Forall keeps_bookmarks
                [ClickHome; Settle 0 (succeeded 200 [item 1 "A"]); ClickBookmarksFilter])
    by (repeat constructor).
  split; [exact H|].
  apply (bookmarks_change_only_by_toggle (Some (lit "k")) _
           (mkWorld (mkState [] false [] [1%Z] None None false)
                    (Some (lit "[1]")) [] [] [] []) H).
Defined.

(** ** What the page lets the user do *)

Lemma grid_cards_displayed (s : AppState) (movie : Movie) :
  movie ∈ grid_cards s → movie ∈ displayedMovies s.
Proof.
  intros H. unfold grid_cards in H.
  destruct (render_main s) as [| | |cards] eqn:E; try by inversion H.
  unfold render_main in E. repeat case_match; try done; by injection E as <-.
Qed.

(** X17. In the bookmarks-only view a card's bookmark button always
    removes: every card on screen is a bookmarked item, so the click raises
    the removal notification and the item is gone from the displayed list. *)
Theorem card_click_in_bookmarks_view_removes (movie : Movie) (w : World) :
  showBookmarksOnly (view w) = true →
  movie ∈ grid_cards (view w) →
  let w' := exec (toggleBookmark (movie_id movie)) w in
  toasts w' = toasts w ++ [ToastSuccess REMOVED_FROM_BOOKMARKS]
  ∧ includes (bookmarks (view w')) (movie_id movie) = false
  ∧ movie ∉ displayedMovies (view w').
Proof.
  intros Hflag Hcard w'.
  assert (Hin : includes (bookmarks (view w)) (movie_id movie) = true).
  { pose proof (grid_cards_displayed _ _ Hcard) as Hd.
    unfold displayedMovies in Hd. rewrite Hflag in Hd.
    by apply elem_of_array_filter in Hd as [? _]. }
  assert (Hout : includes (bookmarks (view w')) (movie_id movie) = false).
  { subst w'. rewrite toggleBookmark_world. cbn [view bookmarks].
    by rewrite includes_toggled, Z.eqb_refl, Hin. }
  split_and!; [|done|].
  - subst w'. rewrite toggleBookmark_world. cbn [toasts]. by rewrite Hin.
  - assert (Hf : showBookmarksOnly (view w') = true)
      by (subst w'; by rewrite toggleBookmark_world).
    unfold displayedMovies. rewrite Hf.
    intros [Hm _]%elem_of_array_filter. congruence.
Qed.

Lemma card_click_in_bookmarks_view_removes_witness :
  let w := mkWorld (mkState [item 1 "A"; item 2 "B"] false [] [2%Z] None None true)
                   None [] [] [] [] in
  showBookmarksOnly (view w) = true
  ∧ item 2 "B" ∈ grid_cards (view w)
  ∧ toasts (exec (toggleBookmark 2) w) = [ToastSuccess REMOVED_FROM_BOOKMARKS].
Proof.
  intros w.
  assert (Hc : item 2 "B" ∈ grid_cards (view w)) by (vm_compute; left).
  split; [reflexivity|]. split; [exact Hc|].
  destruct (card_click_in_bookmarks_view_removes (item 2 "B") w eq_refl Hc)
    as (H & _).
  exact H.
Defined.

Lemma config_error_offers_no_bookmark (w : World) (ev : Event) :
  config_error w → selectedMovie (view w) = None → offered (view w) ev →
  keeps_modal ev ∧ keeps_bookmarks ev ∨ ev = ReloadPage.
Proof.
  intros Hc Hsel Hoff. pose proof (config_error_render w Hc) as Hr.
  destruct ev; try (left; done); try (by right); exfalso;
    unfold offered, grid_cards in Hoff; rewrite Hr in Hoff.
  - destruct Hoff as [(m & Hm & _)|(m & Hm & _)]; [inversion Hm|congruence].
  - inversion Hoff.
Qed.

(** X18. Without a credential the stored bookmarks are safe: the page
    offers no card and no detail view, so whatever the user does through the
    controls on screen, and however often the page is reloaded, the storage
    slot keeps the content it had, no bookmark is set in memory and no item
    gets selected. *)
Theorem missing_credential_keeps_storage (key slot : option jsstring)
    (evs : list Event) (w0 : World) :
  opt_truthy key = false →
  boot key slot = Some w0 →
  offered_all key w0 evs →
  ∃ w, run key w0 evs = Some w
       ∧ storage w = slot
       ∧ bookmarks (view w) = []
       ∧ selectedMovie (view w) = None.
Proof.
  intros Hk Hb. rewrite boot_without_key in Hb by done. injection Hb as <-.
  set (Q := λ w : World, config_error w ∧ selectedMovie (view w) = None
                         ∧ storage w = slot ∧ bookmarks (view w) = []).
  assert (HQ0 : Q (mkWorld (mkState [] false [] [] None (Some API_KEY_MISSING) false)
                           slot [] [] [] [])) by by repeat split.
  revert HQ0. generalize (mkWorld (mkState [] false [] [] None (Some API_KEY_MISSING) false)
                           slot [] [] [] []).
  induction evs as [|ev evs IH]; intros w (Hc & Hsel & Hst & Hbs) Hoff.
  - by exists w.
  - destruct Hoff as [Hoff Hrest].
    destruct (config_error_step key w ev Hk Hc) as (w1 & Hs & Hc1).
    rewrite Hs in Hrest.
    assert (HQ1 : Q w1).
    { destruct (config_error_offers_no_bookmark w ev Hc Hsel Hoff)
        as [[Hm Hkb]| ->].
      - assert (w1 = exec (handle key ev) w) as ->
          by (destruct ev; try done; by injection Hs).
        destruct (handle_keeps_bookmarks key ev w) as [E1 E2].
        { intros movieId ->. apply Hkb. }
        pose proof (handle_keeps_selected key ev w Hm) as E3.
        split_and!; [done|congruence..].
      - cbn [step] in Hs. rewrite boot_without_key in Hs by done.
        injection Hs as <-. split_and!; try done. }
    destruct (IH w1 HQ1 Hrest) as (w' & Hr & Hw').
    exists w'. split; [|apply Hw']. simpl. by rewrite Hs.
Qed.

Lemma missing_credential_keeps_storage_witness :
  let w0 := mkWorld (mkState [] false [] [] None (Some API_KEY_MISSING) false)
                    (Some (lit "[7]")) [] [] [] [] in
  opt_truthy None = false
  ∧ boot None (Some (lit "[7]")) = Some w0
  ∧ offered_all None w0 [ClickHome; ChangeSearch (lit "x"); ReloadPage]
  ∧ ∃ w, run None w0 [ClickHome; ChangeSearch (lit "x"); ReloadPage] = Some w
         ∧ storage w = Some (lit "[7]").
Proof.
  intros w0.
  assert (Hoff : offered_all None w0 [ClickHome; ChangeSearch (lit "x"); ReloadPage])
    by (by repeat split).
  split; [reflexivity|]. split; [reflexivity|]. split; [exact Hoff|].
  destruct (missing_credential_keeps_storage None (Some (lit "[7]"))
              [ClickHome; ChangeSearch (lit "x"); ReloadPage] w0
              eq_refl eq_refl Hoff) as (w & Hr & Hst & _).
  exists w. by split.
Defined.

(** ** Where bookmarks come from *)

Lemma boot_bookmarks (key slot : option jsstring) (w : World) :
  boot key slot = Some w →
  movies (view w) = [] ∧ selectedMovie (view w) = None ∧ storage w = slot
  ∧ (bookmarks (view w) = [] ∨ slot_content slot = Some (bookmarks (view w))).
Proof.
  intros Hb. destruct (opt_truthy key) eqn:Hk.
  - destruct slot as [[|c text]|].
    + unfold boot, boot_with, mount_effect_with, fetchTrendingMovies in Hb.
      rewrite Hk in Hb. injection Hb as <-. split_and!; try done. by left.
    + destruct (JSON_parse (c :: text)) as [bs|] eqn:Hp.
      * rewrite (boot_with_key key (Some (c :: text)) bs Hk Hp) in Hb.
        injection Hb as <-. split_and!; try done. by right.
      * unfold boot, boot_with, mount_effect_with, fetchTrendingMovies in Hb.
        rewrite Hk in Hb. revert Hb. eff_unfold. cbn [str_truthy].
        unfold JSON_parse_with. by rewrite Hp.
    + rewrite (boot_with_key key None [] Hk eq_refl) in Hb.
      injection Hb as <-. split_and!; try done. by left.
  - rewrite boot_without_key in Hb by done. injection Hb as <-.
    split_and!; try done. by left.
Qed.

Lemma handle_movies (key : option jsstring) (ev : Event) (w : World)
    (movie : Movie) :
  movie ∈ movies (view (exec (handle key ev) w)) →
  movie ∈ movies (view w)
  ∨ ∃ n o, ev = Settle n o ∧ movie ∈ outcome_items o.
Proof.
  destruct ev; try (by left).
  - unfold handle, fetchTrendingMovies. destruct (opt_truthy key); by left.
  - rewrite change_search_world.
    destruct (opt_truthy key); [|by left].
    destruct (str_truthy (trim value)); [destruct (isWellFormed value)|];
      try (by left).
    by inversion 1.
  - rewrite handle_settle. destruct (inflight w !! n) as [k|]; [|by left].
    intros Hm. right. exists n, o. split; [done|]. revert Hm.
    destruct k, o as [|[] status [[[]|]|]]; cbn; try done; by inversion 1.
Qed.

Lemma sourced_mono (seen seen' : list Z) (w : World) :
  seen ⊆ seen' → sourced seen w → sourced seen' w.
Proof.
  intros Hsub (H1 & H2 & H3 & H4). split_and!.
  - intros m Hm. by apply Hsub, H1.
  - intros m Hm. by apply Hsub, H2.
  - intros id Hid. by apply Hsub, H3.
  - intros bs id Hs Hid. by apply Hsub, (H4 bs).
Qed.

Lemma sourced_step (key : option jsstring) (seen : list Z) (w w' : World)
    (ev : Event) :
  sourced seen w → offered (view w) ev → step key w ev = Some w' →
  sourced (seen ++ delivered [ev]) w'.
Proof.
  intros (H1 & H2 & H3 & H4) Hoff Hs.
  assert (Hgrid : ∀ m, m ∈ grid_cards (view w) → movie_id m ∈ seen).
  { intros m Hm. apply H1. apply grid_cards_displayed in Hm.
    unfold displayedMovies in Hm. destruct (showBookmarksOnly (view w)); [|done].
    by apply elem_of_array_filter in Hm as [_ ?]. }
  assert (Hleft : ∀ x, x ∈ seen → x ∈ seen ++ delivered [ev])
    by (intros x Hx; apply elem_of_app; by left).
  assert (Hplain : keeps_modal ev → keeps_bookmarks ev →
                   sourced (seen ++ delivered [ev]) (exec (handle key ev) w)).
  { intros Hkm Hkb. destruct (handle_keeps_bookmarks key ev w) as [E1 E2].
    { intros id ->. apply Hkb. }
    split_and!.
    - intros m [Hm|(n & o & -> & Hm)]%handle_movies.
      + by apply Hleft, H1.
      + apply elem_of_app. right. unfold delivered. simpl.
        rewrite app_nil_r. by apply list_elem_of_fmap_2.
    - rewrite (handle_keeps_selected key ev w Hkm).
      intros m Hm. by apply Hleft, H2.
    - rewrite E1. intros id Hid. by apply Hleft, H3.
    - rewrite E2. intros bs id Hb Hid. by apply Hleft, (H4 bs). }
  destruct ev; cbn [step] in Hs.
  1-3, 7: by (injection Hs as <-; apply Hplain).
  - injection Hs as <-.
    assert (Hid : movieId ∈ seen).
    { destruct Hoff as [(m & Hm & <-)|(m & Hm & <-)];
        [by apply Hgrid|by apply H2]. }
    rewrite toggleBookmark_world. split_and!; cbn [view storage movies
      selectedMovie bookmarks slot_content].
    + intros m Hm. by apply Hleft, H1.
    + intros m Hm. by apply Hleft, H2.
    + intros x [[Hx _]|[-> _]]%elem_of_toggled; apply Hleft; [by apply H3|done].
    + intros bs x. rewrite JSON_parse_stringify. intros [= <-].
      intros [[Hx _]|[-> _]]%elem_of_toggled; apply Hleft; [by apply H3|done].
  - injection Hs as <-. split_and!.
    + intros m Hm. by apply Hleft, H1.
    + intros m [= <-]. by apply Hleft, Hgrid.
    + intros id Hid. by apply Hleft, H3.
    + intros bs id Hb Hid. by apply Hleft, (H4 bs).
  - injection Hs as <-. split_and!.
    + intros m Hm. by apply Hleft, H1.
    + done.
    + intros id Hid. by apply Hleft, H3.
    + intros bs id Hb Hid. by apply Hleft, (H4 bs).
  - apply boot_bookmarks in Hs as (Hm & Hsel & Hst & Hbs). split_and!.
    + rewrite Hm. by inversion 1.
    + by rewrite Hsel.
    + destruct Hbs as [->|Hbs]; [by inversion 1|].
      intros id Hid. by apply Hleft, (H4 _ id Hbs).
    + rewrite Hst. intros bs id Hb Hid. by apply Hleft, (H4 bs).
Qed.

Lemma sourced_run (key : option jsstring) (evs : list Event) (seen : list Z)
    (w w' : World) :
  sourced seen w → offered_all key w evs → run key w evs = Some w' →
  sourced (seen ++ delivered evs) w'.
Proof.
  revert seen w. induction evs as [|ev evs IH]; intros seen w Hw Hoff Hr.
  - injection Hr as <-. unfold delivered. simpl. by rewrite app_nil_r.
  - destruct Hoff as [Hoff Hrest]. simpl in Hr.
    destruct (step key w ev) as [w1|] eqn:Hs; [|done]. simpl in Hr.
    pose proof (sourced_step key seen w w1 ev Hw Hoff Hs) as Hw1.
    pose proof (IH _ w1 Hw1 Hrest Hr) as Hw'.
    eapply sourced_mono; [|exact Hw'].
    unfold delivered. simpl. rewrite app_nil_r, <- app_assoc. done.
Qed.

(** X19. Bookmarks have a source.  When every event is raised through a
    control the page offers, an identifier can only be bookmarked if it was
    in the storage slot when the page was loaded or came in the results of
    some response: the page never lets the user bookmark anything else. *)
Theorem bookmarks_come_from_results (key slot : option jsstring)
    (evs : list Event) (w0 w : World) (id : Z) :
  boot key slot = Some w0 →
  offered_all key w0 evs →
  run key w0 evs = Some w →
  id ∈ bookmarks (view w) →
  id ∈ default [] (slot_content slot) ∨ id ∈ delivered evs.
Proof.
  intros Hb Hoff Hr Hid.
  apply boot_bookmarks in Hb as (Hm & Hsel & Hst & Hbs).
  assert (H0 : sourced (default [] (slot_content slot)) w0).
  { split_and!.
    - rewrite Hm. by inversion 1.
    - by rewrite Hsel.
    - destruct Hbs as [->| ->]; [by inversion 1|done].
    - rewrite Hst. by intros bs x ->. }
  destruct (sourced_run key evs _ w0 w H0 Hoff Hr) as (_ & _ & H3 & _).
  by apply elem_of_app, H3.
Qed.

Lemma bookmarks_come_from_results_witness :
  let key := Some (lit "k") in
  let evs := [Settle 0 (succeeded 200 [item 5 "E"]); ClickBookmark 5] in
  let w0 := mkWorld (mkState [] true [] [] None None false) None []
                    [GetTrending key] [AwaitTrending] [] in
  let w := mkWorld (mkState [item 5 "E"] false [] [5%Z] None None false)
                   (Some (JSON_stringify [5%Z]))
                   [ToastSuccess ADDED_TO_BOOKMARKS]
                   [GetTrending key] [] [] in
  boot key None = Some w0
  ∧ offered_all key w0 evs
  ∧ run key w0 evs = Some w
  ∧ 5%Z ∈ bookmarks (view w)
  ∧ 5%Z ∈ delivered evs.
Proof.
  intros key evs w0 w.
  assert (Hb : boot key None = Some w0) by reflexivity.
  assert (Hr : run key w0 evs = Some w) by reflexivity.
  assert (Hoff : offered_all key w0 evs).
  { split; [exact I|]. split; [|exact I]. left. exists (item 5 "E").
    split; [apply list_elem_of_here|reflexivity]. }
  assert (Hin : 5%Z ∈ bookmarks (view w)) by apply list_elem_of_here.
  split; [exact Hb|]. split; [exact Hoff|]. split; [exact Hr|].
  split; [exact Hin|].
  destruct (bookmarks_come_from_results key None evs w0 w 5 Hb Hoff Hr Hin)
    as [H|H]; [inversion H|exact H].
Defined.
